(** * Module levels and dependents pruning of the release script

    A shallow embedding of [release/src/module_dependencies/main.py]:
    the module records, the networkx [DiGraph] the script builds from them,
    the pruner [removeModulesInIntermediatePaths] and the level computation
    [calculateLevels], followed by the properties of the level assignment
    and of the pruned [dependents] lists. *)

From Stdlib Require Import String List ZArith Lia Bool Arith ListDec.
From Stdlib Require Import Ascii Sorting.Sorted Sorting.Permutation.
From Stdlib Require Import DecimalString Structures.OrderedTypeEx.
Import ListNotations.

Local Open Scope Z_scope.

(** ** Exceptions and results *)

(** The exceptions the embedded code can raise: [max] over an empty
    sequence ([ValueError]) and a failed dictionary lookup ([KeyError]). *)
Inductive exn : Type :=
| ValueError
| KeyError (key : string).

(** A run either returns, raises, or is still looping when the fuel given
    to the [while] loop is spent. *)
Inductive result (A : Type) : Type :=
| Ok (a : A)
| Raise (e : exn)
| OutOfFuel.

Arguments Ok {A} a.
Arguments Raise {A} e.
Arguments OutOfFuel {A}.

Definition bind {A B : Type} (r : result A) (k : A -> result B) : result B :=
  match r with
  | Ok a => k a
  | Raise e => Raise e
  | OutOfFuel => OutOfFuel
  end.

Notation "x <- r ;; k" := (bind r (fun x => k))
  (at level 61, r at next level, right associativity).
Notation "' p <- r ;; k" := (bind r (fun x => let p := x in k))
  (at level 61, p pattern, r at next level, right associativity).

(** A [for] loop whose body threads a state and may raise. *)
Fixpoint foldM {A S : Type} (f : S -> A -> result S) (l : list A) (s : S)
  : result S :=
  match l with
  | [] => Ok s
  | a :: t => s' <- f s a ;; foldM f t s'
  end.

(** ** Module records *)

(** One entry of [moduleDetailsJSON['modules']]. *)
Record ModuleRecord : Type := mkModule {
  name : string;
  version : string;
  level : Z;
  release : bool;
  dependents : list string
}.

Definition with_level (m : ModuleRecord) (l : Z) : ModuleRecord :=
  mkModule (name m) (version m) l (release m) (dependents m).

Definition with_dependents (m : ModuleRecord) (d : list string)
  : ModuleRecord :=
  mkModule (name m) (version m) (level m) (release m) d.

(** ** The directed graph *)

(** A networkx [DiGraph] as far as the script uses it.  [g_node] is the
    node dictionary in insertion order; the only node attribute is
    ['level'], which a node created by [add_edge] does not have.  [g_adj]
    holds the edges in insertion order, each once: the successors of [u]
    are iterated in the order their edges were first added. *)
Record DiGraph : Type := mkGraph {
  g_node : list (string * option Z);
  g_adj : list (string * string)
}.

Definition empty_graph : DiGraph := mkGraph [] [].

Definition edge_eq_dec (e1 e2 : string * string) : {e1 = e2} + {e1 <> e2}.
Proof. decide equality; apply string_dec. Defined.

Definition nodes (G : DiGraph) : list string := map fst (g_node G).

(** [d[n]['level'] = l] on the node dictionary; [None] when [n] is no key. *)
Fixpoint set_attr (n : string) (l : Z) (ns : list (string * option Z))
  : option (list (string * option Z)) :=
  match ns with
  | [] => None
  | (k, a) :: t =>
      if string_dec k n then Some ((k, Some l) :: t)
      else match set_attr n l t with
           | Some t' => Some ((k, a) :: t')
           | None => None
           end
  end.

(** [G.add_node(n, level=l)]. *)
Definition add_node (G : DiGraph) (n : string) (l : Z) : DiGraph :=
  match set_attr n l (g_node G) with
  | Some ns => mkGraph ns (g_adj G)
  | None => mkGraph (g_node G ++ [(n, Some l)]) (g_adj G)
  end.

(** What [add_edge] does to an endpoint: a new node gets no attributes. *)
Definition touch_node (G : DiGraph) (n : string) : DiGraph :=
  if in_dec string_dec n (nodes G) then G
  else mkGraph (g_node G ++ [(n, None)]) (g_adj G).

(** [G.add_edge(u, v)]. *)
Definition add_edge (G : DiGraph) (u v : string) : DiGraph :=
  let G1 := touch_node (touch_node G u) v in
  if in_dec edge_eq_dec (u, v) (g_adj G1) then G1
  else mkGraph (g_node G1) (g_adj G1 ++ [(u, v)]).

Definition is_src (u : string) (e : string * string) : bool :=
  if string_dec (fst e) u then true else false.

Definition is_dst (v : string) (e : string * string) : bool :=
  if string_dec (snd e) v then true else false.

(** [G.successors(u)]. *)
Definition successors (G : DiGraph) (u : string) : list string :=
  map snd (filter (is_src u) (g_adj G)).

(** [G.in_degree(v)] and [G.out_degree(u)]. *)
Definition in_degree (G : DiGraph) (v : string) : nat :=
  length (filter (is_dst v) (g_adj G)).

Definition out_degree (G : DiGraph) (u : string) : nat :=
  length (successors G u).

Fixpoint lookup (n : string) (ns : list (string * option Z))
  : option (option Z) :=
  match ns with
  | [] => None
  | (k, a) :: t => if string_dec k n then Some a else lookup n t
  end.

(** [G.nodes[n]['level']]. *)
Definition get_level (G : DiGraph) (n : string) : result Z :=
  match lookup n (g_node G) with
  | None => Raise (KeyError n)
  | Some None => Raise (KeyError "level")
  | Some (Some l) => Ok l
  end.

(** [G.nodes[n]['level'] = l]. *)
Definition set_level (G : DiGraph) (n : string) (l : Z) : result DiGraph :=
  match set_attr n l (g_node G) with
  | Some ns => Ok (mkGraph ns (g_adj G))
  | None => Raise (KeyError n)
  end.

(** ** Simple paths *)

(** The depth-first enumeration behind [nx.all_simple_paths]: [visited] is
    the current path, last node first; [d] is how many more edges the
    cutoff allows.  A child already on the path is skipped, the target is
    reported and not searched through, any other child is descended
    into. *)
Fixpoint simple_paths_from (G : DiGraph) (target : string) (d : nat)
  (visited : list string) (cur : string) : list (list string) :=
  match d with
  | O => []
  | S d' =>
      flat_map
        (fun child =>
           if in_dec string_dec child visited then []
           else if string_dec child target then [rev (child :: visited)]
           else simple_paths_from G target d' (child :: visited) child)
        (successors G cur)
  end.

(** [nx.all_simple_paths(G, source, target)], with networkx's default
    cutoff [len(G) - 1]: the simple paths from [source] to [target] in
    depth-first order, successors taken in the order of their edges.
    This is what networkx enumerates for a [source] and a [target] that
    are nodes of the graph and differ, as they are and do in every call
    the loop below makes on a graph without self-loop.  Outside of that
    nothing is enumerated here, where networkx raises [NodeNotFound]
    for a [source] that is no node and where its versions differ for
    [source = target] (nothing, or the path of one node); the loop asks
    for paths from a node to itself only at a self-loop it has reached,
    from where it does not return either way. *)
Definition all_simple_paths (G : DiGraph) (source target : string)
  : list (list string) :=
  simple_paths_from G target (length (g_node G) - 1) [source] source.

(** [max(paths, key=lambda x: len(x))]: the first of the longest paths,
    [None] standing for the [ValueError] of an empty sequence. *)
Fixpoint max_by_len (ps : list (list string)) : option (list string) :=
  match ps with
  | [] => None
  | p :: ps' =>
      match max_by_len ps' with
      | None => Some p
      | Some q => if (length q <=? length p)%nat then Some p else Some q
      end
  end.

(** ** The pruner *)

(** [l.remove(x)] where [x] is known to be in [l]: the first occurrence
    goes. *)
Fixpoint remove_first (x : string) (l : list string) : list string :=
  match l with
  | [] => []
  | y :: t => if string_dec y x then t else y :: remove_first x t
  end.

(** The scan of [moduleDetailsJSON['modules']] in the pruner: the first
    record named [source] loses the first [destination] of its
    dependents, if it has one, and the scan stops there. *)
Fixpoint remove_dependent (source destination : string)
  (mods : list ModuleRecord) : list ModuleRecord :=
  match mods with
  | [] => []
  | m :: t =>
      if string_dec (name m) source then
        (if in_dec string_dec destination (dependents m)
         then with_dependents m (remove_first destination (dependents m))
         else m) :: t
      else m :: remove_dependent source destination t
  end.

(** [longestPath[1:-1]]. *)
Definition interior (p : list string) : list string := removelast (tl p).

Definition removeModulesInIntermediatePaths (G : DiGraph)
  (source destination : string) (succs : list string)
  (mods : list ModuleRecord) : result (list ModuleRecord) :=
  match max_by_len (all_simple_paths G source destination) with
  | None => Raise ValueError
  | Some longestPath =>
      Ok (fold_left
            (fun ms n =>
               if in_dec string_dec n succs
               then remove_dependent source destination ms
               else ms)
            (interior longestPath) mods)
  end.

(** ** Level computation *)

(** The first two loops of [calculateLevels]: one node per module name at
    level 1, one edge per entry of a record's dependents. *)
Definition add_nodes (names : list string) (G : DiGraph) : DiGraph :=
  fold_left (fun g n => add_node g n 1) names G.

Definition add_edges_of (G : DiGraph) (m : ModuleRecord) : DiGraph :=
  fold_left (fun g d => add_edge g (name m) d) (dependents m) G.

Definition build_graph (names : list string) (mods : list ModuleRecord)
  : DiGraph :=
  fold_left add_edges_of mods (add_nodes names empty_graph).

(** The nodes the propagation starts from. *)
Definition is_start (G : DiGraph) (n : string) : bool :=
  (in_degree G n =? 0)%nat && negb (out_degree G n =? 0)%nat.

Definition initial_list (G : DiGraph) : list string :=
  filter (is_start G) (nodes G).

(** The state the [while] loop works on inside one wave: the graph (whose
    node levels change), the module records (whose dependents change) and
    [temp]. *)
Definition wave_state : Type :=
  (DiGraph * list ModuleRecord * list string)%type.

(** The body of [for successor in successors]. *)
Definition visit (node : string) (succs : list string) (lv : Z)
  (st : wave_state) (successor : string) : result wave_state :=
  let '(G, mods, temp) := st in
  mods' <- removeModulesInIntermediatePaths G node successor succs mods ;;
  G' <- set_level G successor lv ;;
  Ok (G', mods',
      if in_dec string_dec successor temp then temp else temp ++ [successor]).

(** The body of [for node in processingList]. *)
Definition process_node (lv : Z) (st : wave_state) (node : string)
  : result wave_state :=
  let succs := successors (fst (fst st)) node in
  foldM (visit node succs lv) succs st.

(** One iteration of the [while] loop, up to the reassignment of
    [processingList]. *)
Definition wave (G : DiGraph) (mods : list ModuleRecord)
  (processingList : list string) (lv : Z) : result wave_state :=
  foldM (process_node lv) processingList (G, mods, []).

Fixpoint while_loop (fuel : nat) (G : DiGraph) (mods : list ModuleRecord)
  (processingList : list string) (lv : Z)
  : result (DiGraph * list ModuleRecord) :=
  match processingList with
  | [] => Ok (G, mods)
  | _ :: _ =>
      match fuel with
      | O => OutOfFuel
      | S fuel' =>
          '(G', mods', temp) <- wave G mods processingList lv ;;
          while_loop fuel' G' mods' temp (lv + 1)
      end
  end.

(** The last loop: every record gets the level of its node. *)
Fixpoint write_levels (G : DiGraph) (mods : list ModuleRecord)
  : result (list ModuleRecord) :=
  match mods with
  | [] => Ok []
  | m :: t =>
      l <- get_level G (name m) ;;
      t' <- write_levels G t ;;
      Ok (with_level m l :: t')
  end.

Definition calculateLevels (fuel : nat) (moduleNameList : list string)
  (moduleDetailsJSON : list ModuleRecord) : result (list ModuleRecord) :=
  let G := build_graph moduleNameList moduleDetailsJSON in
  '(G', mods') <- while_loop fuel G moduleDetailsJSON (initial_list G) 2 ;;
  write_levels G' mods'.

(** ** Building the records *)

Section Initialize.

(** [getVersion] reads a file over the network; it is a parameter
    here. *)
Variable getVersion : string -> string.

Definition initializeModuleDetails (moduleNameList : list string)
  : list ModuleRecord :=
  map (fun moduleName =>
         mkModule moduleName (getVersion moduleName) 0 true [])
      moduleNameList.

End Initialize.

(** * The rest of the script *)

(** The functions around [calculateLevels]: the reading of the build
    files, the sorting, the immediate dependents, the dashboard and
    [main]. *)

(** ** Text *)

(** A Python [str] is held as the bytes of its UTF-8 encoding, the bytes
    the script decodes it from.  A character starts at a byte that is
    no continuation byte and takes the continuation bytes that follow
    it; the separators and the words the script looks for are ASCII, one
    byte a character. *)

(** The bytes from [lo] to [hi]. *)
Definition between (lo hi : N) (c : ascii) : bool :=
  (lo <=? N_of_ascii c)%N && (N_of_ascii c <=? hi)%N.

(** The bytes [10xxxxxx], which continue a character. *)
Definition continuation (c : ascii) : bool := between 128 191 c.

(** [len(s)]: the characters of [s]. *)
Fixpoint chars (s : string) : nat :=
  match s with
  | EmptyString => O
  | String c s' => if continuation c then chars s' else S (chars s')
  end.

(** [s[:k]]: the first [k] characters of [s]. *)
Fixpoint take_chars (k : nat) (s : string) : string :=
  match s with
  | EmptyString => EmptyString
  | String c s' =>
      if continuation c then String c (take_chars k s')
      else match k with
           | O => EmptyString
           | S k' => String c (take_chars k' s')
           end
  end.

(** [needle in s]. *)
Fixpoint contains (needle s : string) : bool :=
  match s with
  | EmptyString => prefix needle EmptyString
  | String _ s' => prefix needle s || contains needle s'
  end.

(** [s.split(sep)[-1]] for a separator of one character: what follows
    the last [sep] of [s], or [s] itself when it has none.  [acc] is the
    answer as far as the string has been read. *)
Fixpoint after_last (sep : ascii) (s acc : string) : string :=
  match s with
  | EmptyString => acc
  | String c s' =>
      if ascii_dec c sep then after_last sep s' s' else after_last sep s' acc
  end.

Definition split_last (sep : ascii) (s : string) : string :=
  after_last sep s s.

(** [s[:-n]] for a positive [n]: [s] without its last [n] characters,
    nothing of it when it has no more than [n]. *)
Definition drop_last (n : nat) (s : string) : string :=
  take_chars (chars s - n)%nat s.

(** [str(i)] for an integer. *)
Definition str (i : Z) : string := NilZero.string_of_int (Z.to_int i).

(** ** Sorting *)

Section SortBy.

Context {A K : Type}.
Variable key : A -> K.
Variable leb : K -> K -> bool.

(** [l.sort(key=key)]: Python's sort is stable, and what a stable sort
    returns is determined by the list and the order of the keys; it is
    computed here by insertion, an element going in front of the first
    one whose key is not smaller. *)
Fixpoint insert_by (x : A) (l : list A) : list A :=
  match l with
  | [] => [x]
  | y :: t => if leb (key x) (key y) then x :: l else y :: insert_by x t
  end.

Definition sort_by (l : list A) : list A := fold_right insert_by [] l.

End SortBy.

(** The part of [sortModuleNameList] between reading and writing the
    file: the names sorted by what follows their last hyphen. *)
Definition sortModuleNameList (nameList : list string) : list string :=
  sort_by (split_last "-") String.leb nameList.

(** ** Reading the build files *)

Section Fetch.

(** The lines of a module's [build.gradle] and [gradle.properties],
    which the script reads over the network and decodes.  Decoding
    leaves the bytes of a line that is a text as they are and raises on
    any other line; the lines are taken to be texts. *)
Variable build_gradle : string -> list string.
Variable gradle_properties : string -> list string.

Definition getDependencies (balModule : string) : list string :=
  fold_left
    (fun dependencies processedLine =>
       if contains "ballerina-platform/module" processedLine then
         let module := split_last "/" processedLine in
         if string_dec (drop_last 2 module) balModule then dependencies
         else dependencies ++ [drop_last 2 module]
       else dependencies)
    (build_gradle balModule) [].

Definition getVersion (balModule : string) : string :=
  fold_left
    (fun version processedLine =>
       if prefix "version=" processedLine
       then drop_last 1 (split_last "=" processedLine)
       else version)
    (gradle_properties balModule) EmptyString.

End Fetch.

(** ** Immediate dependents *)

Definition module_eq_dec (m1 m2 : ModuleRecord) : {m1 = m2} + {m1 <> m2}.
Proof.
  decide equality; auto using string_dec, Z.eq_dec, bool_dec, list_eq_dec.
Defined.

(** [l.index(m)]: the position of the first record equal to [m]. *)
Fixpoint index_of (m : ModuleRecord) (l : list ModuleRecord) : option nat :=
  match l with
  | [] => None
  | x :: t =>
      if module_eq_dec x m then Some O
      else match index_of m t with
           | Some i => Some (S i)
           | None => None
           end
  end.

(** [l[i]['dependents'].append(n)]. *)
Fixpoint append_dependent (i : nat) (n : string) (l : list ModuleRecord)
  {struct l} : list ModuleRecord :=
  match l, i with
  | [], _ => []
  | m :: t, O => with_dependents m (dependents m ++ [n]) :: t
  | m :: t, S i' => m :: append_dependent i' n t
  end.

(** The body of the inner loop of [getImmediateDependents], [module]
    being the record at position [k]: the record that gets the new
    dependent is the first one equal to it.  The loop only asks for
    positions of the list, and a record of the list has an index, so
    the two [None] cases are never met. *)
Definition mark_dependent (moduleName : string) (dependencies : list string)
  (mods : list ModuleRecord) (k : nat) : list ModuleRecord :=
  match nth_error mods k with
  | None => mods
  | Some module =>
      if in_dec string_dec (name module) dependencies then
        match index_of module mods with
        | Some i => append_dependent i moduleName mods
        | None => mods
        end
      else mods
  end.

Definition getImmediateDependents (getDependencies : string -> list string)
  (moduleNameList : list string) (moduleDetailsJSON : list ModuleRecord)
  : list ModuleRecord :=
  fold_left
    (fun mods moduleName =>
       fold_left (mark_dependent moduleName (getDependencies moduleName))
                 (seq 0 (length mods)) mods)
    moduleNameList moduleDetailsJSON.

(** ** The dashboard *)

Definition BALLERINA_ORG_NAME : string := "ballerina-platform".
Definition BALLERINA_ORG_URL : string :=
  "https://github.com/ballerina-platform/".
Definition GITHUB_BADGE_URL : string := "https://img.shields.io/github/".

(** The line feed. *)
Definition nl : string := String (ascii_of_nat 10) EmptyString.

Local Open Scope string_scope.

(** One row of the table; [levelColumn] is an integer or, as [None], the
    empty string. *)
Definition dashboard_row (levelColumn : option Z) (module : ModuleRecord)
  : string :=
  "|" ++ match levelColumn with Some l => str l | None => "" end ++ "|" ++
  "[" ++ split_last "-" (name module) ++ "](" ++ BALLERINA_ORG_URL
    ++ name module ++ ")| " ++
  "[![GitHub Release](" ++ GITHUB_BADGE_URL ++ "release/"
    ++ BALLERINA_ORG_NAME ++ "/" ++ name module ++ ".svg?label=)]" ++
  "(" ++ BALLERINA_ORG_URL ++ name module ++ "/releases)| " ++
  "[![Build](" ++ BALLERINA_ORG_URL ++ name module
    ++ "/workflows/Build/badge.svg)]" ++
  "(" ++ BALLERINA_ORG_URL ++ name module
    ++ "/actions?query=workflow%3ABuild)| " ++
  "[![GitHub Last Commit](" ++ GITHUB_BADGE_URL ++ "last-commit/"
    ++ BALLERINA_ORG_NAME ++ "/" ++ name module ++ ".svg?label=)]" ++
  "(" ++ BALLERINA_ORG_URL ++ name module ++ "/commits/master)| " ++
  "[![Github issues](" ++ GITHUB_BADGE_URL ++ "issues" ++ "/"
    ++ BALLERINA_ORG_NAME ++ "/ballerina-standard-library/module/"
    ++ split_last "-" (name module) ++ ".svg?label=)]" ++
  "(" ++ BALLERINA_ORG_URL ++ "ballerina-standard-library/labels/module%2F"
    ++ split_last "-" (name module) ++ ")| " ++
  "[![GitHub pull-requests](" ++ GITHUB_BADGE_URL ++ "issues-pr" ++ "/"
    ++ BALLERINA_ORG_NAME ++ "/" ++ name module ++ ".svg?label=)]" ++
  "(" ++ BALLERINA_ORG_URL ++ name module ++ "/pulls)|" ++ nl.

(** The loop over the modules: the text of the rows, [levelColumn] and
    [currentLevel] being what they are when the loop reaches [mods]. *)
Fixpoint dashboard_rows (mods : list ModuleRecord) (levelColumn : option Z)
  (currentLevel : Z) : string :=
  match mods with
  | [] => ""
  | module :: t =>
      let raise := (currentLevel <? level module)%Z in
      let levelColumn := if raise then Some (level module)
                         else levelColumn in
      let currentLevel := if raise then level module else currentLevel in
      dashboard_row levelColumn module ++ dashboard_rows t None currentLevel
  end.

(** The loop over the lines of the old README: they are copied up to and
    with the first one that holds the rule of the table's head. *)
Fixpoint readme_head (readMeFile : list string) : string :=
  match readMeFile with
  | [] => ""
  | processedLine :: t =>
      processedLine ++
      (if contains "|:---:|:---:|:---:|:---:|:---:|:---:|:---:|"
            processedLine
       then "" else readme_head t)
  end.

(** The text [updateStdlibDashboard] writes to [README.md], from the
    decoded lines of the README it has read. *)
Definition updateStdlibDashboard (readMeFile : list string)
  (mods : list ModuleRecord) : string :=
  readme_head readMeFile ++ dashboard_rows mods (Some 1%Z) 1%Z.

Local Close Scope string_scope.

(** ** The script *)

Section Main.

Variable build_gradle : string -> list string.
Variable gradle_properties : string -> list string.

(** The records [main] hands to [calculateLevels], and the graph
    [calculateLevels] builds from them. *)
Definition main_records (module_list : list string) : list ModuleRecord :=
  getImmediateDependents (getDependencies build_gradle)
    (sortModuleNameList module_list)
    (initializeModuleDetails (getVersion gradle_properties)
       (sortModuleNameList module_list)).

Definition main_graph (module_list : list string) : DiGraph :=
  build_graph (sortModuleNameList module_list) (main_records module_list).

(** [main], from the names in [module_list.json] and the lines of the
    README to what it writes: the records for [stdlib_modules.json] and
    the text for [README.md]. *)
Definition main (fuel : nat) (module_list : list string)
  (readMeFile : list string) : result (list ModuleRecord * string) :=
  let moduleNameList := sortModuleNameList module_list in
  let moduleDetailsJSON :=
    initializeModuleDetails (getVersion gradle_properties) moduleNameList in
  let moduleDetailsJSON :=
    getImmediateDependents (getDependencies build_gradle) moduleNameList
      moduleDetailsJSON in
  moduleDetailsJSON <- calculateLevels fuel moduleNameList moduleDetailsJSON ;;
  let sorted := sort_by level Z.leb moduleDetailsJSON in
  Ok (sorted, updateStdlibDashboard readMeFile sorted).

End Main.

(** * Vocabulary of the properties *)

(** ** Edges, walks and roots *)

Definition edge (G : DiGraph) (u v : string) : Prop := In (u, v) (g_adj G).

(** [walk G k u v]: [k] edges lead from [u] to [v]. *)
Inductive walk (G : DiGraph) : nat -> string -> string -> Prop :=
| walk_nil u : walk G O u u
| walk_cons k u v w : edge G u v -> walk G k v w -> walk G (S k) u w.

(** No node is reached from itself along one or more edges. *)
Definition acyclic (G : DiGraph) : Prop := forall k u, ~ walk G (S k) u u.

(** A root: nothing in the graph points to it. *)
Definition root (G : DiGraph) (r : string) : Prop := in_degree G r = O.

(** [k] is the number of hops of a longest walk from a root to [v]. *)
Definition longest_from_root (G : DiGraph) (v : string) (k : nat) : Prop :=
  (exists r, root G r /\ walk G k r v) /\
  forall r' k', root G r' -> walk G k' r' v -> (k' <= k)%nat.

(** Every endpoint of an edge is a node. *)
Definition closed (G : DiGraph) : Prop :=
  forall u v, edge G u v -> In u (nodes G) /\ In v (nodes G).

(** A walk together with the nodes it leaves, in order. *)
Inductive trail (G : DiGraph) : list string -> string -> string -> Prop :=
| trail_nil u : trail G [] u u
| trail_cons u v w l : edge G u v -> trail G l v w -> trail G (u :: l) u w.

(** Consecutive nodes of the list are joined by edges. *)
Fixpoint chain (G : DiGraph) (p : list string) : Prop :=
  match p with
  | [] => True
  | x :: t =>
      match t with
      | [] => True
      | y :: _ => edge G x y /\ chain G t
      end
  end.

(** [declared mods u v]: some record named [u] lists [v] as a dependent. *)
Definition declared (mods : list ModuleRecord) (u v : string) : Prop :=
  exists m, In m mods /\ name m = u /\ In v (dependents m).

(** Two graphs that differ in node levels at most. *)
Definition same_shape (B G : DiGraph) : Prop :=
  g_adj G = g_adj B /\ nodes G = nodes B.

(** ** A decision procedure for acyclicity *)

(** The nodes that walks of [n] hops starting in [l] end at. *)
Fixpoint hops (G : DiGraph) (n : nat) (l : list string) : list string :=
  match n with
  | O => l
  | S n' => hops G n' (flat_map (successors G) l)
  end.

(** No walk has more hops than there are edges. *)
Definition acyclicb (G : DiGraph) : bool :=
  match hops G (S (length (g_adj G))) (map fst (g_adj G)) with
  | [] => true
  | _ :: _ => false
  end.

(** ** Records before and after *)

(** [sublist l1 l2]: [l1] is [l2] with some entries left out. *)
Inductive sublist : list string -> list string -> Prop :=
| sublist_nil : sublist [] []
| sublist_skip x l1 l2 : sublist l1 l2 -> sublist l1 (x :: l2)
| sublist_keep x l1 l2 : sublist l1 l2 -> sublist (x :: l1) (x :: l2).

(** How a record may differ from the one it started as: only in its
    dependents, which lost some entries, each of them the end of a walk of
    two hops or more from the record's module. *)
Definition pruned_from (G : DiGraph) (m m' : ModuleRecord) : Prop :=
  name m' = name m /\ version m' = version m /\ level m' = level m /\
  release m' = release m /\
  sublist (dependents m') (dependents m) /\
  forall x, In x (dependents m) ->
            In x (dependents m') \/ exists j, walk G (S (S j)) (name m) x.

(** How a record of the result relates to the record it comes from, [B]
    being the graph as built and [G'] the graph when the loop has ended:
    name, version and release flag are the same, the dependents lost
    entries doubled by longer walks, and the level is that of the node. *)
Definition leveled (B G' : DiGraph) (m m' : ModuleRecord) : Prop :=
  name m' = name m /\ version m' = version m /\ release m' = release m /\
  sublist (dependents m') (dependents m) /\
  (forall x, In x (dependents m) ->
             In x (dependents m') \/ exists j, walk B (S (S j)) (name m) x) /\
  lookup (name m) (g_node G') = Some (Some (level m')).

(** Record by record, the dependents lost entries and gained none. *)
Definition shrunk (mods mods' : list ModuleRecord) : Prop :=
  Forall2 (fun m m' => sublist (dependents m') (dependents m)) mods mods'.

(** ** Node levels *)

(** Every level in the graph is 1 and sits on a listed module name. *)
Definition levels_from (names : list string) (G : DiGraph) : Prop :=
  forall k l, lookup k (g_node G) = Some (Some l) -> l = 1 /\ In k names.

(** No level in the graph is above [lv]. *)
Definition levels_below (lv : Z) (G : DiGraph) : Prop :=
  forall k l, lookup k (g_node G) = Some (Some l) -> l <= lv.

(** Every level of [G] is still there in [G'], and no lower. *)
Definition raised (G G' : DiGraph) : Prop :=
  forall k l, lookup k (g_node G) = Some (Some l) ->
              exists l', lookup k (g_node G') = Some (Some l') /\ l <= l'.

(** ** Invariants of the loops *)

(** The invariant of a wave.  [B] is the graph as built, [base] the
    records as given, [G0] the graph when the wave starts, [F] its
    [processingList] and [lv] its level: the graph has kept its shape,
    the records are pruned ones, the nodes in [temp] are at level [lv] and
    the others where they were, and every node in [temp] is a successor
    of a node in [F]. *)
Definition wave_inv (B : DiGraph) (base : list ModuleRecord) (G0 : DiGraph)
  (F : list string) (lv : Z) (st : wave_state) : Prop :=
  let '(G, mods, temp) := st in
  same_shape B G /\
  Forall2 (pruned_from B) base mods /\
  (forall k, In k temp -> lookup k (g_node G) = Some (Some lv)) /\
  (forall k, ~ In k temp -> lookup k (g_node G) = lookup k (g_node G0)) /\
  (forall x, In x temp -> exists u, In u F /\ edge B u x).

Definition reached (x : string) (st : wave_state) : Prop := In x (snd st).

(** What the loop started on [G], [F] and [lv] has done to the level of
    [v] when it ends with [G']: nothing if no walk leads from [F] to
    [v], and otherwise the level is that of the last wave to reach [v],
    [lv] plus the hops, less one, of a longest walk from [F] to [v]. *)
Definition loop_post (B G : DiGraph) (F : list string) (lv : Z)
  (G' : DiGraph) (v : string) : Prop :=
  (lookup v (g_node G') = lookup v (g_node G) /\
   forall u j, In u F -> ~ walk B (S j) u v) \/
  (exists u j, In u F /\ walk B (S j) u v /\
     lookup v (g_node G') = Some (Some (lv + Z.of_nat j)) /\
     forall u' j', In u' F -> walk B (S j') u' v -> (j' <= j)%nat).

(** Two states of a wave that differ in the records at most. *)
Definition same_graph_temp (s1 s2 : wave_state) : Prop :=
  fst (fst s1) = fst (fst s2) /\ snd s1 = snd s2.

(** ** Inputs the claims are tried on *)

(** The three modules of the specification's example: A has the
    dependents B and C, B has the dependent C. *)
Definition abc_names : list string := ["A"; "B"; "C"]%string.

Definition abc (vA vB vC : string) (lA lB lC : Z) (rA rB rC : bool)
  : list ModuleRecord :=
  [ mkModule "A" vA lA rA ["B"; "C"]%string;
    mkModule "B" vB lB rB ["C"]%string;
    mkModule "C" vC lC rC [] ].

(** The example as [initializeModuleDetails] and [getImmediateDependents]
    hand it over, what the pruner makes of it, and the result. *)
Definition abc0 : list ModuleRecord :=
  abc "1.0.0" "1.0.0" "1.0.0" 0 0 0 true true true.

Definition abc_pruned : list ModuleRecord :=
  [ mkModule "A" "1.0.0" 0 true ["B"]%string;
    mkModule "B" "1.0.0" 0 true ["C"]%string;
    mkModule "C" "1.0.0" 0 true [] ].

Definition abc_out : list ModuleRecord :=
  [ mkModule "A" "1.0.0" 1 true ["B"]%string;
    mkModule "B" "1.0.0" 2 true ["C"]%string;
    mkModule "C" "1.0.0" 3 true [] ].

Definition abc_graph_final : DiGraph :=
  mkGraph [ ("A"%string, Some 1); ("B"%string, Some 2); ("C"%string, Some 3) ]
          [ ("A", "B"); ("A", "C"); ("B", "C") ]%string.

(** A module whose dependent is no module of the run. *)
Definition foreign_names : list string := ["A"]%string.

Definition foreign_mods : list ModuleRecord :=
  [ mkModule "A" "1.0.0" 0 true ["X"]%string ].

(** The example again, with A listing C twice, and what one and two calls
    of the pruner for A and C make of it. *)
Definition dup_mods : list ModuleRecord :=
  [ mkModule "A" "1.0.0" 0 true ["C"; "C"; "B"]%string;
    mkModule "B" "1.0.0" 0 true ["C"]%string;
    mkModule "C" "1.0.0" 0 true [] ].

Definition dup_once : list ModuleRecord :=
  [ mkModule "A" "1.0.0" 0 true ["C"; "B"]%string;
    mkModule "B" "1.0.0" 0 true ["C"]%string;
    mkModule "C" "1.0.0" 0 true [] ].

Definition dup_twice : list ModuleRecord :=
  [ mkModule "A" "1.0.0" 0 true ["B"]%string;
    mkModule "B" "1.0.0" 0 true ["C"]%string;
    mkModule "C" "1.0.0" 0 true [] ].

(** ** Vocabulary for the rest of the script *)

(** [c] occurs in [s]. *)
Fixpoint has_char (c : ascii) (s : string) : bool :=
  match s with
  | EmptyString => false
  | String a s' => if ascii_dec a c then true else has_char c s'
  end.

(** The second byte [b] of a character of three bytes that starts with
    [a]: no encoding longer than needed and no surrogate. *)
Definition second_of_three (a b : ascii) : bool :=
  between 224 224 a && between 160 191 b
  || between 225 236 a && between 128 191 b
  || between 237 237 a && between 128 159 b
  || between 238 239 a && between 128 191 b.

(** The second byte of a character of four bytes: nothing below
    [U+10000] and nothing above [U+10FFFF]. *)
Definition second_of_four (a b : ascii) : bool :=
  between 240 240 a && between 144 191 b
  || between 241 243 a && between 128 191 b
  || between 244 244 a && between 128 143 b.

(** The strings that hold a text: the bytes [line.decode("utf-8")]
    decodes, characters of one to four bytes one after the other.  On
    any other bytes the decoding raises. *)
Fixpoint utf8 (s : string) : bool :=
  match s with
  | EmptyString => true
  | String a s1 =>
      if between 0 127 a then utf8 s1
      else
        match s1 with
        | EmptyString => false
        | String b s2 =>
            if between 194 223 a then continuation b && utf8 s2
            else
              match s2 with
              | EmptyString => false
              | String c s3 =>
                  if second_of_three a b then continuation c && utf8 s3
                  else
                    match s3 with
                    | EmptyString => false
                    | String d s4 =>
                        second_of_four a b && continuation c
                        && continuation d && utf8 s4
                    end
              end
        end
  end.

(** A line of [build.gradle] as far as [getDependencies] tells lines
    apart: one that names the repository of a module [d] of the
    organisation, after some text [pre] and before the two characters
    [suf] that end the line, or any other line. *)
Inductive gradle_line : Type :=
| Repo (pre d suf : string)
| Other (line : string).

Definition render_line (l : gradle_line) : string :=
  match l with
  | Repo pre d suf => (pre ++ "ballerina-platform/" ++ d ++ suf)%string
  | Other line => line
  end.

(** The parts of a line are texts, and [suf] is two characters, of
    however many bytes. *)
Definition well_formed_line (l : gradle_line) : Prop :=
  match l with
  | Repo pre d suf =>
      utf8 pre = true /\ utf8 d = true /\ utf8 suf = true /\
      prefix "module" d = true /\ has_char "/" d = false /\
      chars suf = 2%nat /\ has_char "/" suf = false
  | Other line =>
      utf8 line = true /\ contains "ballerina-platform/module" line = false
  end.

Definition repos (ls : list gradle_line) : list string :=
  flat_map (fun l => match l with Repo _ d _ => [d] | Other _ => [] end) ls.

(** How [getImmediateDependents] may change a record: it may add names
    of the module list at the end of its dependents, and nothing else. *)
Definition extended (names : list string) (m m' : ModuleRecord) : Prop :=
  name m' = name m /\ version m' = version m /\ level m' = level m /\
  release m' = release m /\
  exists added, dependents m' = dependents m ++ added /\ incl added names.

(** The texts of a list, one after the other. *)
Definition join (l : list string) : string := fold_right append EmptyString l.

(** What the level column shows in the rows after the first, [prev]
    being the level of the row above: the level of a row that is higher
    than the one above, and nothing otherwise. *)
Fixpoint level_marks (prev : Z) (mods : list ModuleRecord)
  : list (option Z) :=
  match mods with
  | [] => []
  | m :: t =>
      (if prev <? level m then Some (level m) else None)
      :: level_marks (level m) t
  end.

(** The level column of the whole table: the first row shows its level. *)
Definition level_column (mods : list ModuleRecord) : list (option Z) :=
  match mods with
  | [] => []
  | m :: t => Some (level m) :: level_marks (level m) t
  end.

(** Three modules to try the properties on: [log] depends on [io], and
    [auth] on [io] and [log]; every [build.gradle] names the module's
    own repository too. *)
Definition ex_module_list : list string :=
  [ "module-ballerina-log"; "module-ballerina-io";
    "module-ballerina-auth" ]%string.

Definition ex_repo (d : string) : gradle_line :=
  Repo "        url = 'https://maven.pkg.github.com/" d ("'" ++ nl).

Definition ex_gradle (m : string) : list gradle_line :=
  Other ("repositories {" ++ nl)
  :: (if string_dec m "module-ballerina-log"
      then [ex_repo "module-ballerina-io"; ex_repo "module-ballerina-log"]
      else if string_dec m "module-ballerina-auth"
      then [ex_repo "module-ballerina-io"; ex_repo "module-ballerina-auth";
            ex_repo "module-ballerina-log"]
      else [ex_repo m])
  ++ [Other ("}" ++ nl)].

Definition ex_build_gradle (m : string) : list string :=
  map render_line (ex_gradle m).

Definition ex_gradle_properties (m : string) : list string :=
  [ "org.gradle.caching=true" ++ nl; "version=0.9.0" ++ nl;
    "version=1.0.0" ++ nl; "group=org.ballerinalang" ++ nl ]%string.

(** The letter e with an acute accent, one character of two bytes, and
    the two characters that end a line whose quote is a right single
    quotation mark, a character of three bytes. *)
Definition e_acute : string := String "195" (String "169" EmptyString).

Definition curly_end : string :=
  (String "226" (String "128" (String "153" EmptyString)) ++ nl)%string.

(** A [build.gradle] with letters and a quote outside ASCII. *)
Definition ex_accented_gradle : list gradle_line :=
  [ Other ("// d" ++ e_acute ++ "pendances" ++ nl);
    Repo ("    url " ++ e_acute ++ " https://maven.pkg.github.com/")
         "module-ballerina-io" curly_end;
    Repo "    url = 'https://maven.pkg.github.com/"
         ("module-ballerina-caf" ++ e_acute) ("'" ++ nl) ]%string.

(** A [gradle.properties] whose last line ends without a line feed, in
    a character of two bytes. *)
Definition ex_accented_properties (m : string) : list string :=
  [ "version=0.9.0" ++ nl; "version=1.0.0" ++ e_acute ]%string.

Definition ex_out : list ModuleRecord :=
  [ mkModule "module-ballerina-io" "1.0.0" 1 true
      ["module-ballerina-log"]%string;
    mkModule "module-ballerina-log" "1.0.0" 2 true
      ["module-ballerina-auth"]%string;
    mkModule "module-ballerina-auth" "1.0.0" 3 true [] ].

Definition ex_readme : list string :=
  [ "# Ballerina Standard Library" ++ nl;
    "|Level|Name|Latest Version|Build|Last Commit|Issues|Pull Requests|"
      ++ nl;
    "|:---:|:---:|:---:|:---:|:---:|:---:|:---:|" ++ nl;
    "|1|an old row|" ++ nl ]%string.

(** [m] is among the dependencies of [n]. *)
Definition depends_on (getDependencies : string -> list string)
  (m n : string) : bool :=
  if in_dec string_dec m (getDependencies n) then true else false.

(** ** Inputs without a result, or without a start *)

(** A record that is no listed module and that nothing depends on. *)
Definition stray_names : list string := [].

Definition stray_mods : list ModuleRecord :=
  [ mkModule "A" "1.0.0" 0 true ["B"]%string;
    mkModule "B" "1.0.0" 0 true [] ].

(** A cycle between B and C that A leads into, and the cycle alone. *)
Definition cycle_mods : list ModuleRecord :=
  [ mkModule "A" "1.0.0" 0 true ["B"]%string;
    mkModule "B" "1.0.0" 0 true ["C"]%string;
    mkModule "C" "1.0.0" 0 true ["B"]%string ].

(** A record without dependents that is no listed module. *)
Definition lone_mods : list ModuleRecord :=
  [ mkModule "A" "1.0.0" 0 true [] ].

Definition ring_names : list string := ["B"; "C"]%string.

Definition ring_mods : list ModuleRecord :=
  [ mkModule "B" "1.0.0" 0 true ["C"]%string;
    mkModule "C" "1.0.0" 0 true ["B"]%string ].

(** * Properties *)

(** ** Results *)

Lemma bind_Ok {A B : Type} (r : result A) (k : A -> result B) (b : B) :
  bind r k = Ok b -> exists a, r = Ok a /\ k a = Ok b.
Proof.
  destruct r as [a| |]; simpl; intros H; try discriminate.
  exists a; split; [reflexivity | exact H].
Qed.

Ltac inv_bind H :=
  let a := fresh "a" in
  let Ha := fresh "Ha" in
  apply bind_Ok in H; destruct H as [a [Ha H]].

(** ** The node dictionary *)

Lemma set_attr_Some n l ns ns' :
  set_attr n l ns = Some ns' ->
  map fst ns' = map fst ns /\
  forall k, lookup k ns' =
            if string_dec k n then Some (Some l) else lookup k ns.
Proof.
  revert ns'. induction ns as [|[k a] t IH]; simpl; intros ns' H.
  - discriminate.
  - destruct (string_dec k n) as [->|Hkn].
    + injection H as <-. simpl. split; [reflexivity|].
      intros k. destruct (string_dec n k) as [->|Hnk].
      * destruct (string_dec k k); [reflexivity | contradiction].
      * destruct (string_dec k n); [subst; contradiction | reflexivity].
    + destruct (set_attr n l t) as [t'|] eqn:Et; [|discriminate].
      injection H as <-. destruct (IH t' eq_refl) as [Hm Hl].
      simpl. split; [now rewrite Hm|].
      intros k0. destruct (string_dec k k0) as [->|Hkk0].
      * destruct (string_dec k0 n); [subst; contradiction | reflexivity].
      * apply Hl.
Qed.

Lemma set_attr_None n l ns : set_attr n l ns = None <-> ~ In n (map fst ns).
Proof.
  induction ns as [|[k a] t IH]; simpl.
  - split; [intros _ [] | reflexivity].
  - destruct (string_dec k n) as [->|Hkn].
    + split; [discriminate | intros H; exfalso; apply H; now left].
    + destruct (set_attr n l t).
      * split; [discriminate|]. intros H. exfalso.
        assert (Hn : ~ In n (map fst t)) by (intros Hin; apply H; now right).
        apply IH in Hn. discriminate.
      * split; [|reflexivity]. intros _ [Heq|Hin]; [contradiction|].
        now apply (proj1 IH eq_refl).
Qed.

Lemma lookup_None n ns : lookup n ns = None <-> ~ In n (map fst ns).
Proof.
  induction ns as [|[k a] t IH]; simpl.
  - split; [intros _ [] | reflexivity].
  - destruct (string_dec k n) as [->|Hkn].
    + split; [discriminate | intros H; exfalso; apply H; now left].
    + rewrite IH. split.
      * intros H [Heq|Hin]; [contradiction | now apply H].
      * intros H Hin. apply H. now right.
Qed.

Lemma lookup_app k ns ms :
  lookup k (ns ++ ms) =
  match lookup k ns with Some a => Some a | None => lookup k ms end.
Proof.
  induction ns as [|[k' a] t IH]; simpl; [reflexivity|].
  destruct (string_dec k' k); [reflexivity | exact IH].
Qed.

(** ** Edges, degrees and walks *)

Lemma in_successors G u v : In v (successors G u) <-> edge G u v.
Proof.
  unfold successors, edge. rewrite in_map_iff. split.
  - intros [[a b] [Hb Hin]]. simpl in Hb. subst b.
    apply filter_In in Hin. destruct Hin as [Hin Hs]. unfold is_src in Hs.
    simpl in Hs. destruct (string_dec a u); [now subst | discriminate].
  - intros H. exists (u, v). split; [reflexivity|].
    apply filter_In. split; [exact H|]. unfold is_src. simpl.
    destruct (string_dec u u); [reflexivity | contradiction].
Qed.

Lemma in_degree_zero G v : in_degree G v = O <-> forall u, ~ edge G u v.
Proof.
  unfold in_degree, edge. split.
  - intros H u Hin. apply length_zero_iff_nil in H.
    assert (Hf : In (u, v) (filter (is_dst v) (g_adj G))).
    { apply filter_In. split; [exact Hin|]. unfold is_dst. simpl.
      destruct (string_dec v v); [reflexivity | contradiction]. }
    rewrite H in Hf. exact Hf.
  - intros H. destruct (filter (is_dst v) (g_adj G)) as [|[a b] t] eqn:E;
      [reflexivity|]. exfalso.
    assert (Hf : In (a, b) (filter (is_dst v) (g_adj G)))
      by (rewrite E; now left).
    apply filter_In in Hf. destruct Hf as [Hin Hd]. unfold is_dst in Hd.
    simpl in Hd. destruct (string_dec b v); [|discriminate].
    subst b. exact (H a Hin).
Qed.

Lemma in_degree_pos G v : in_degree G v <> O -> exists u, edge G u v.
Proof.
  unfold in_degree, edge. intros H.
  destruct (filter (is_dst v) (g_adj G)) as [|[a b] t] eqn:E;
    [contradiction|].
  assert (Hf : In (a, b) (filter (is_dst v) (g_adj G)))
    by (rewrite E; now left).
  apply filter_In in Hf. destruct Hf as [Hin Hd]. unfold is_dst in Hd.
  simpl in Hd. destruct (string_dec b v); [|discriminate].
  subst b. now exists a.
Qed.

Lemma out_degree_pos G u v : edge G u v -> out_degree G u <> O.
Proof.
  intros H. apply in_successors in H. unfold out_degree.
  destruct (successors G u); [contradiction | discriminate].
Qed.

Lemma in_initial_list G n :
  In n (initial_list G) <->
  In n (nodes G) /\ root G n /\ out_degree G n <> O.
Proof.
  unfold initial_list, is_start, root. rewrite filter_In, andb_true_iff.
  rewrite Nat.eqb_eq, negb_true_iff, Nat.eqb_neq. tauto.
Qed.

Lemma walk_snoc G k u v w : walk G k u v -> edge G v w -> walk G (S k) u w.
Proof.
  induction 1 as [u|k u x v Hux Hxv IH]; intros Hvw.
  - apply (walk_cons G O u w w Hvw). constructor.
  - apply (walk_cons G (S k) u x w Hux). now apply IH.
Qed.

Lemma walk_app G j k u v w :
  walk G j u v -> walk G k v w -> walk G (j + k) u w.
Proof.
  induction 1 as [u|j u x v Hux Hxv IH]; intros Hvw; simpl.
  - exact Hvw.
  - apply (walk_cons G (j + k) u x w Hux). now apply IH.
Qed.

Lemma walk_S_inv G k u w :
  walk G (S k) u w -> exists v, edge G u v /\ walk G k v w.
Proof. inversion 1; subst; eauto. Qed.

Lemma walk_O_inv G u w : walk G O u w -> u = w.
Proof. inversion 1; subst; reflexivity. Qed.

(** ** Walks of an acyclic graph are short *)

Lemma walk_trail G k u w :
  walk G k u w -> exists l, length l = k /\ trail G l u w.
Proof.
  induction 1 as [u|k u v w Huv Hvw [l [Hl Ht]]].
  - exists []. split; [reflexivity | constructor].
  - exists (u :: l).
    split; [simpl; now rewrite Hl | now apply trail_cons with v].
Qed.

Lemma trail_walk G l u w : trail G l u w -> walk G (length l) u w.
Proof.
  induction 1 as [u|u v w l Huv Hvw IH]; simpl.
  - constructor.
  - now apply walk_cons with v.
Qed.

Lemma trail_sources G l u w :
  trail G l u w -> incl l (map fst (g_adj G)).
Proof.
  induction 1 as [u|u v w l Huv Hvw IH].
  - intros x [].
  - intros x [<-|Hx]; [|now apply IH].
    apply in_map_iff. exists (u, v). split; [reflexivity | exact Huv].
Qed.

Lemma trail_split G l1 a l2 u w :
  trail G (l1 ++ a :: l2) u w -> trail G l1 u a /\ trail G (a :: l2) a w.
Proof.
  revert u. induction l1 as [|x l1 IH]; simpl; intros u H.
  - inversion H; subst. split; [constructor | exact H].
  - inversion H as [|u' v w' l' Huv Ht]; subst.
    destruct (IH _ Ht) as [Ha Hb].
    split; [now apply trail_cons with v | exact Hb].
Qed.

Lemma trail_NoDup G l u w : acyclic G -> trail G l u w -> NoDup l.
Proof.
  intros Hac Ht. destruct (NoDup_dec string_dec l) as [Hn|Hn]; [exact Hn|].
  exfalso. apply not_NoDup in Hn.
  2:{ intros x y. destruct (string_dec x y); [now left | now right]. }
  destruct Hn as [a [l1 [l2 [l3 ->]]]].
  apply trail_split in Ht. destruct Ht as [_ Ht].
  change (a :: l2 ++ a :: l3) with ((a :: l2) ++ a :: l3) in Ht.
  apply trail_split in Ht. destruct Ht as [Ht _].
  apply trail_walk in Ht. simpl in Ht. exact (Hac _ _ Ht).
Qed.

(** In an acyclic graph no walk has more hops than there are edges. *)
Lemma walk_bound G k u w :
  acyclic G -> walk G k u w -> (k <= length (g_adj G))%nat.
Proof.
  intros Hac Hw. destruct (walk_trail G k u w Hw) as [l [<- Ht]].
  rewrite <- (length_map fst (g_adj G)).
  apply NoDup_incl_length.
  - now apply trail_NoDup with G u w.
  - now apply trail_sources with u w.
Qed.

(** Going back along incoming edges from any walk ends at a root. *)
Lemma walk_back_to_root G :
  acyclic G ->
  forall d k u a, (length (g_adj G) < k + d)%nat -> walk G k u a ->
  exists r j, root G r /\ walk G j r a /\ (k <= j)%nat.
Proof.
  intros Hac. induction d as [|d IH]; intros k u a Hlt Hw.
  - apply (walk_bound G k u a Hac) in Hw. lia.
  - destruct (Nat.eq_dec (in_degree G u) O) as [Hz|Hnz].
    + exists u, k. auto.
    + destruct (in_degree_pos G u Hnz) as [p Hp].
      destruct (IH (S k) p a) as [r [j [Hr [Hj Hle]]]].
      * lia.
      * now apply walk_cons with u.
      * exists r, j. repeat split; auto. lia.
Qed.

Lemma reach_root G a :
  acyclic G -> exists r j, root G r /\ walk G j r a.
Proof.
  intros Hac.
  destruct (walk_back_to_root G Hac (S (length (g_adj G))) O a a)
    as [r [j [Hr [Hj _]]]].
  - lia.
  - constructor.
  - eauto.
Qed.

Lemma longest_from_root_unique G v k1 k2 :
  longest_from_root G v k1 -> longest_from_root G v k2 -> k1 = k2.
Proof.
  intros [[r1 [Hr1 Hw1]] Hm1] [[r2 [Hr2 Hw2]] Hm2].
  apply Nat.le_antisymm; eauto.
Qed.

(** ** A graph and its reduct have the same longest walks *)

Section Reduct.

Variables G G' : DiGraph.

(** [G'] has no edge that [G] lacks, and an edge of [G] that [G'] lacks
    is doubled in [G] by a walk of two hops or more. *)
Hypothesis sub : forall u v, edge G' u v -> edge G u v.
Hypothesis kept : forall u v,
  edge G u v -> edge G' u v \/ exists j, walk G (S (S j)) u v.

Lemma walk_sub k u v : walk G' k u v -> walk G k u v.
Proof.
  induction 1 as [u|k u x v Hux Hxv IH]; [constructor|].
  apply walk_cons with x; auto.
Qed.

Lemma acyclic_sub : acyclic G -> acyclic G'.
Proof. intros Hac k u Hw. apply (Hac k u). now apply walk_sub. Qed.

Lemma root_sub r : root G r -> root G' r.
Proof.
  unfold root. rewrite !in_degree_zero. intros H u Hu.
  apply (H u). now apply sub.
Qed.

Lemma longest_walk_kept k u v :
  walk G k u v -> (forall k', walk G k' u v -> (k' <= k)%nat) ->
  walk G' k u v.
Proof.
  induction 1 as [u|k u x v Hux Hxv IH]; intros Hmax; [constructor|].
  apply walk_cons with x.
  - destruct (kept u x Hux) as [He|[j Hj]]; [exact He|].
    exfalso.
    pose proof (Hmax _ (walk_app G _ _ u x v Hj Hxv)) as Hle. lia.
  - apply IH. intros k' Hk'.
    pose proof (Hmax _ (walk_cons G k' u x v Hux Hk')) as Hle. lia.
Qed.

Lemma longest_from_root_kept v k :
  acyclic G -> longest_from_root G v k -> longest_from_root G' v k.
Proof.
  intros Hac [[r [Hr Hw]] Hmax]. split.
  - exists r. split; [now apply root_sub|].
    apply longest_walk_kept; [exact Hw|].
    intros k' Hk'. now apply (Hmax r).
  - intros r' k' Hr' Hw'. apply walk_sub in Hw'.
    destruct (reach_root G r' Hac) as [r0 [j [Hr0 Hj]]].
    pose proof (Hmax r0 _ Hr0 (walk_app G _ _ _ _ _ Hj Hw')) as Hle. lia.
Qed.

End Reduct.

(** ** Graph construction *)

(** The records [main] hands to [calculateLevels] carry the listed names,
    in the order of the list. *)
Lemma initializeModuleDetails_names getVersion names :
  map name (initializeModuleDetails getVersion names) = names.
Proof.
  unfold initializeModuleDetails. rewrite map_map. simpl. apply map_id.
Qed.

Lemma add_node_adj G n l : g_adj (add_node G n l) = g_adj G.
Proof. unfold add_node. destruct (set_attr n l (g_node G)); reflexivity. Qed.

Lemma add_node_lookup G n l k :
  lookup k (g_node (add_node G n l)) =
  if string_dec k n then Some (Some l) else lookup k (g_node G).
Proof.
  unfold add_node. destruct (set_attr n l (g_node G)) as [ns|] eqn:E; simpl.
  - apply (set_attr_Some n l (g_node G) ns E).
  - apply set_attr_None in E. apply lookup_None in E.
    rewrite lookup_app. simpl.
    destruct (string_dec k n) as [->|Hkn].
    + rewrite E. destruct (string_dec n n); [reflexivity | contradiction].
    + destruct (lookup k (g_node G)); [reflexivity|].
      destruct (string_dec n k); [subst; contradiction | reflexivity].
Qed.

Lemma add_nodes_adj names G : g_adj (add_nodes names G) = g_adj G.
Proof.
  unfold add_nodes. revert G. induction names as [|n t IH]; simpl; intros G.
  - reflexivity.
  - rewrite IH. apply add_node_adj.
Qed.

Lemma add_nodes_lookup names G k :
  In k names -> lookup k (g_node (add_nodes names G)) = Some (Some 1).
Proof.
  unfold add_nodes. revert G. induction names as [|n t IH]; simpl; intros G Hin.
  - contradiction.
  - destruct (in_dec string_dec k t) as [Ht|Ht]; [now apply IH|].
    destruct Hin as [->|Hin]; [|contradiction].
    clear IH. revert G. induction t as [|n' t IH]; simpl; intros G.
    + rewrite add_node_lookup.
      destruct (string_dec k k); [reflexivity | contradiction].
    + assert (Hk : k <> n') by (intros ->; apply Ht; now left).
      assert (Ht' : ~ In k t) by (intros Hin; apply Ht; now right).
      specialize (IH Ht').
      (* the two insertions of distinct keys commute on [k] *)
      assert (Hgen : forall g, lookup k (g_node g) = Some (Some 1) ->
                 lookup k (g_node (fold_left (fun g n => add_node g n 1) t g))
                 = Some (Some 1)).
      { clear IH. induction t as [|n'' t IHt]; simpl; intros g Hg; [exact Hg|].
        apply IHt.
        - intros [Heq|Hin]; apply Ht; [now left | now right; right].
        - intros Hin. apply Ht'. now right.
        - rewrite add_node_lookup.
          destruct (string_dec k n''); [reflexivity | exact Hg]. }
      apply Hgen. rewrite add_node_lookup.
      destruct (string_dec k n'); [contradiction|].
      rewrite add_node_lookup.
      destruct (string_dec k k); [reflexivity | contradiction].
Qed.

Lemma touch_node_adj G n : g_adj (touch_node G n) = g_adj G.
Proof.
  unfold touch_node. destruct (in_dec string_dec n (nodes G)); reflexivity.
Qed.

Lemma touch_node_in G n : In n (nodes (touch_node G n)).
Proof.
  unfold touch_node. destruct (in_dec string_dec n (nodes G)) as [H|H].
  - exact H.
  - unfold nodes. simpl. rewrite map_app. apply in_or_app. right. now left.
Qed.

Lemma touch_node_incl G n k : In k (nodes G) -> In k (nodes (touch_node G n)).
Proof.
  unfold touch_node. destruct (in_dec string_dec n (nodes G)) as [H|H].
  - auto.
  - unfold nodes. simpl. rewrite map_app. intros Hk. apply in_or_app. now left.
Qed.

Lemma touch_node_lookup G n k a :
  lookup k (g_node G) = Some a -> lookup k (g_node (touch_node G n)) = Some a.
Proof.
  unfold touch_node. destruct (in_dec string_dec n (nodes G)) as [H|H].
  - auto.
  - simpl. intros Hk. rewrite lookup_app, Hk. reflexivity.
Qed.

Lemma add_edge_nodes G u v :
  g_node (add_edge G u v) = g_node (touch_node (touch_node G u) v).
Proof.
  unfold add_edge. cbv zeta.
  destruct (in_dec edge_eq_dec (u, v) _); reflexivity.
Qed.

Lemma add_edge_edge G u v a b :
  edge (add_edge G u v) a b <-> edge G a b \/ (a = u /\ b = v).
Proof.
  unfold add_edge, edge. cbv zeta.
  destruct (in_dec edge_eq_dec (u, v) _) as [Hin|Hin].
  - rewrite !touch_node_adj in *. split; [now left|].
    intros [H|[-> ->]]; auto.
  - simpl. rewrite !touch_node_adj, in_app_iff. simpl. split.
    + intros [H|[H|[]]]; [now left|]. injection H as <- <-. now right.
    + intros [H|[-> ->]]; [now left | right; now left].
Qed.

Lemma add_edge_ends G u v :
  In u (nodes (add_edge G u v)) /\ In v (nodes (add_edge G u v)).
Proof.
  unfold nodes. rewrite add_edge_nodes. split.
  - apply touch_node_incl, touch_node_in.
  - apply touch_node_in.
Qed.

Lemma add_edge_incl G u v k :
  In k (nodes G) -> In k (nodes (add_edge G u v)).
Proof.
  unfold nodes at 2. rewrite add_edge_nodes. intros H.
  now apply touch_node_incl, touch_node_incl.
Qed.

Lemma add_edge_lookup G u v k a :
  lookup k (g_node G) = Some a -> lookup k (g_node (add_edge G u v)) = Some a.
Proof.
  rewrite add_edge_nodes. intros H.
  now apply touch_node_lookup, touch_node_lookup.
Qed.

Lemma add_edge_closed G u v : closed G -> closed (add_edge G u v).
Proof.
  intros Hc a b Hab. apply add_edge_edge in Hab.
  destruct Hab as [Hab|[-> ->]].
  - destruct (Hc a b Hab). split; now apply add_edge_incl.
  - apply add_edge_ends.
Qed.

Lemma add_edges_of_spec G m :
  (forall a b, edge (add_edges_of G m) a b <->
               edge G a b \/ (a = name m /\ In b (dependents m))) /\
  (closed G -> closed (add_edges_of G m)) /\
  (forall k a, lookup k (g_node G) = Some a ->
               lookup k (g_node (add_edges_of G m)) = Some a).
Proof.
  unfold add_edges_of. generalize (name m) as u. intros u.
  revert G. induction (dependents m) as [|d ds IH]; simpl; intros G.
  - split; [|split]; auto. intros a b. split; auto.
    intros [H|[_ []]]. exact H.
  - destruct (IH (add_edge G u d)) as [He [Hc Hl]]. split; [|split].
    + intros a b. split.
      * intros H. apply He in H. rewrite add_edge_edge in H.
        destruct H as [[H|[-> ->]]|[-> H]]; auto.
      * intros H. apply He. rewrite add_edge_edge.
        destruct H as [H|[-> [->|H]]]; auto.
    + intros H. now apply Hc, add_edge_closed.
    + intros k a H. now apply Hl, add_edge_lookup.
Qed.

Lemma fold_add_edges_spec mods G :
  (forall a b, edge (fold_left add_edges_of mods G) a b <->
               edge G a b \/ declared mods a b) /\
  (closed G -> closed (fold_left add_edges_of mods G)) /\
  (forall k a, lookup k (g_node G) = Some a ->
               lookup k (g_node (fold_left add_edges_of mods G)) = Some a).
Proof.
  revert G. induction mods as [|m t IH]; simpl; intros G.
  - split; [|split]; auto. intros a b. split; auto.
    intros [H|[m [[] _]]]. exact H.
  - destruct (IH (add_edges_of G m)) as [He [Hc Hl]].
    destruct (add_edges_of_spec G m) as [He1 [Hc1 Hl1]]. split; [|split].
    + intros a b. split.
      * intros H. apply He in H. rewrite He1 in H.
        destruct H as [[H|[-> H]]|[m' [Hin [Hn Hd]]]]; auto.
        -- right. exists m. simpl. auto.
        -- right. exists m'. simpl. auto.
      * intros H. apply He. rewrite He1.
        destruct H as [H|[m' [[<-|Hin] [Hn Hd]]]]; auto.
        right. now exists m'.
    + auto.
    + auto.
Qed.

(** The graph has exactly the declared edges. *)
Lemma build_graph_edge names mods a b :
  edge (build_graph names mods) a b <-> declared mods a b.
Proof.
  unfold build_graph.
  destruct (fold_add_edges_spec mods (add_nodes names empty_graph)) as [He _].
  rewrite He. unfold edge at 1. rewrite add_nodes_adj. simpl. tauto.
Qed.

Lemma build_graph_closed names mods : closed (build_graph names mods).
Proof.
  unfold build_graph.
  destruct (fold_add_edges_spec mods (add_nodes names empty_graph))
    as [_ [Hc _]].
  apply Hc. intros a b H. unfold edge in H. rewrite add_nodes_adj in H.
  destruct H.
Qed.

(** Every listed module name is a node at level 1. *)
Lemma build_graph_level names mods n :
  In n names -> lookup n (g_node (build_graph names mods)) = Some (Some 1).
Proof.
  intros H. unfold build_graph.
  destruct (fold_add_edges_spec mods (add_nodes names empty_graph))
    as [_ [_ Hl]].
  now apply Hl, add_nodes_lookup.
Qed.

(** ** The enumerated paths are simple paths of the graph *)

Lemma chain_snoc G l a b :
  chain G (l ++ [a]) -> edge G a b -> chain G ((l ++ [a]) ++ [b]).
Proof.
  induction l as [|x l IH]; simpl; intros Hc He.
  - auto.
  - destruct (l ++ [a]) as [|y t] eqn:E.
    + destruct l; discriminate.
    + simpl. destruct Hc as [Hxy Hc]. split; [exact Hxy|].
      apply IH; auto.
Qed.

Lemma chain_app_r G l1 l2 : chain G (l1 ++ l2) -> chain G l2.
Proof.
  induction l1 as [|x l1 IH]; simpl; intros H; [exact H|].
  destruct (l1 ++ l2) as [|y t] eqn:E.
  - destruct l1; [simpl in E; subst; exact I | discriminate].
  - apply IH. tauto.
Qed.

Lemma chain_walk G l x y :
  chain G (x :: l ++ [y]) -> walk G (S (length l)) x y.
Proof.
  revert x. induction l as [|z l IH]; intros x H.
  - simpl in H. destruct H as [H _].
    apply walk_cons with y; [exact H | constructor].
  - change (x :: (z :: l) ++ [y]) with (x :: z :: l ++ [y]) in H.
    destruct H as [Hxz H]. simpl.
    apply walk_cons with z; [exact Hxz | now apply IH].
Qed.

Lemma simple_paths_from_sound G target d :
  forall vis cur p,
    In p (simple_paths_from G target d (cur :: vis) cur) ->
    chain G (rev (cur :: vis)) -> NoDup (cur :: vis) ->
    chain G p /\ NoDup p /\
    exists mid, p = rev (cur :: vis) ++ mid ++ [target].
Proof.
  induction d as [|d IH]; intros vis cur p Hin Hc Hnd;
    cbn [simple_paths_from] in Hin.
  - contradiction.
  - apply in_flat_map in Hin. destruct Hin as [child [Hs Hin]].
    apply in_successors in Hs.
    destruct (in_dec string_dec child (cur :: vis)) as [Hv|Hv];
      [contradiction|].
    assert (Hc' : chain G (rev (child :: cur :: vis))).
    { change (rev (child :: cur :: vis))
        with ((rev vis ++ [cur]) ++ [child]).
      apply chain_snoc; auto. }
    assert (Hnd' : NoDup (child :: cur :: vis)) by (constructor; auto).
    destruct (string_dec child target) as [->|Hct].
    + destruct Hin as [<-|[]]. split; [exact Hc'|]. split.
      * now apply NoDup_rev.
      * exists []. reflexivity.
    + destruct (IH (cur :: vis) child p Hin Hc' Hnd') as [H1 [H2 [mid H3]]].
      split; [exact H1|]. split; [exact H2|].
      exists (child :: mid). rewrite H3.
      change (rev (child :: cur :: vis)) with (rev (cur :: vis) ++ [child]).
      rewrite <- app_assoc. reflexivity.
Qed.

Lemma all_simple_paths_sound G source target p :
  In p (all_simple_paths G source target) ->
  chain G p /\ NoDup p /\ exists mid, p = source :: mid ++ [target].
Proof.
  intros H. unfold all_simple_paths in H.
  apply simple_paths_from_sound in H.
  - exact H.
  - exact I.
  - constructor; [intros [] | constructor].
Qed.

Lemma chain_nodes G p x :
  closed G -> (2 <= length p)%nat -> chain G p -> In x p -> In x (nodes G).
Proof.
  intros Hc. revert x. induction p as [|a p IH]; simpl; intros x Hlen Hch Hx.
  - contradiction.
  - destruct p as [|b p]; [simpl in Hlen; lia|].
    destruct Hch as [Hab Hch]. destruct (Hc a b Hab) as [Ha Hb].
    destruct Hx as [Hx|Hx]; [now subst x|].
    destruct p as [|c p].
    + destruct Hx as [Hx|[]]. now subst x.
    + apply IH; auto. simpl. lia.
Qed.

Lemma simple_paths_from_complete G target :
  forall rest d vis cur,
    (length rest < d)%nat ->
    chain G (cur :: rest ++ [target]) ->
    NoDup (rev (cur :: vis) ++ rest ++ [target]) ->
    In (rev (cur :: vis) ++ rest ++ [target])
       (simple_paths_from G target d (cur :: vis) cur).
Proof.
  induction rest as [|x rest IH]; intros d vis cur Hd Hch Hnd;
    (destruct d as [|d]; [simpl in Hd; lia|]); cbn [simple_paths_from];
    apply in_flat_map.
  - exists target. simpl in Hch. destruct Hch as [He _].
    split; [now apply in_successors|].
    destruct (in_dec string_dec target (cur :: vis)) as [Hin|_].
    + exfalso. apply in_rev in Hin. simpl app in Hnd.
      apply NoDup_remove_2 in Hnd. apply Hnd. now rewrite app_nil_r.
    + destruct (string_dec target target); [now left | contradiction].
  - exists x. change (cur :: (x :: rest) ++ [target])
      with (cur :: x :: rest ++ [target]) in Hch.
    destruct Hch as [He Hch]. split; [now apply in_successors|].
    assert (Heq : rev (cur :: vis) ++ (x :: rest) ++ [target]
                  = rev (x :: cur :: vis) ++ rest ++ [target]).
    { change (rev (x :: cur :: vis)) with (rev (cur :: vis) ++ [x]).
      now rewrite <- app_assoc. }
    destruct (in_dec string_dec x (cur :: vis)) as [Hin|_].
    + exfalso. apply in_rev in Hin.
      change ((x :: rest) ++ [target]) with (x :: rest ++ [target]) in Hnd.
      apply NoDup_remove_2 in Hnd. apply Hnd. apply in_or_app. now left.
    + destruct (string_dec x target) as [->|_].
      * exfalso.
        change ((target :: rest) ++ [target])
          with (target :: rest ++ [target]) in Hnd.
        apply NoDup_remove_2 in Hnd. apply Hnd.
        apply in_or_app. right. apply in_or_app. right. now left.
      * rewrite Heq. apply IH; [simpl in Hd; lia | exact Hch |].
        now rewrite <- Heq.
Qed.

(** Every simple path of the graph from [source] to another node
    [target] is enumerated. *)
Lemma all_simple_paths_complete G source mid target :
  closed G ->
  chain G (source :: mid ++ [target]) ->
  NoDup (source :: mid ++ [target]) ->
  In (source :: mid ++ [target]) (all_simple_paths G source target).
Proof.
  intros Hc Hch Hnd. unfold all_simple_paths.
  apply (simple_paths_from_complete G target mid _ [] source); auto.
  assert (Hlen : (length (source :: mid ++ [target])
                  <= length (nodes G))%nat).
  { apply NoDup_incl_length; [exact Hnd|].
    intros x Hx. apply chain_nodes with (source :: mid ++ [target]); auto.
    simpl. rewrite length_app. simpl. lia. }
  unfold nodes in Hlen. rewrite length_map in Hlen.
  simpl in Hlen. rewrite length_app in Hlen. simpl in Hlen. lia.
Qed.

Lemma max_by_len_longest ps p q :
  max_by_len ps = Some p -> In q ps -> (length q <= length p)%nat.
Proof.
  revert p. induction ps as [|r ps IH]; simpl; intros p H Hq; [contradiction|].
  destruct (max_by_len ps) as [m|] eqn:E.
  - destruct (length m <=? length r)%nat eqn:El; injection H as <-.
    + apply Nat.leb_le in El. destruct Hq as [<-|Hq]; [lia|].
      pose proof (IH m eq_refl Hq). lia.
    + apply Nat.leb_gt in El. destruct Hq as [<-|Hq]; [lia|].
      now apply IH.
  - injection H as <-. destruct Hq as [<-|Hq]; [lia|].
    destruct ps; [contradiction | simpl in E].
    destruct (max_by_len ps) as [m|]; [|discriminate].
    destruct (length m <=? length l)%nat; discriminate.
Qed.

Lemma interior_spec source mid target :
  interior (source :: mid ++ [target]) = mid.
Proof. unfold interior. simpl. apply removelast_last. Qed.

Lemma max_by_len_In ps p : max_by_len ps = Some p -> In p ps.
Proof.
  revert p. induction ps as [|q ps IH]; simpl; intros p H; [discriminate|].
  destruct (max_by_len ps) as [r|].
  - destruct (length r <=? length q)%nat; injection H as <-; auto.
  - injection H as <-. auto.
Qed.

Lemma max_by_len_Some ps : ps <> [] -> exists p, max_by_len ps = Some p.
Proof.
  destruct ps as [|q ps]; [contradiction|]. intros _. simpl.
  destruct (max_by_len ps) as [r|]; [|eauto].
  destruct (length r <=? length q)%nat; eauto.
Qed.

Lemma two_nodes (l : list string) u v :
  In u l -> In v l -> u <> v -> (2 <= length l)%nat.
Proof.
  destruct l as [|a [|b l]]; simpl; intros Hu Hv Hne; [tauto | | lia].
  destruct Hu as [<-|[]]. destruct Hv as [<-|[]]. contradiction.
Qed.

(** An edge between two different nodes is itself a simple path, so the
    enumeration for it is never empty. *)
Lemma all_simple_paths_edge G u v :
  closed G -> edge G u v -> u <> v -> all_simple_paths G u v <> [].
Proof.
  intros Hc He Hne. destruct (Hc u v He) as [Hu Hv].
  assert (Hlen : (2 <= length (g_node G))%nat).
  { unfold nodes in Hu, Hv. rewrite <- (length_map fst).
    now apply two_nodes with u v. }
  unfold all_simple_paths.
  destruct (length (g_node G) - 1)%nat as [|d] eqn:E; [lia|].
  assert (Hin : In [u; v] (simple_paths_from G v (S d) [u] u)).
  { cbn [simple_paths_from]. apply in_flat_map. exists v.
    split; [now apply in_successors|].
    destruct (in_dec string_dec v [u]) as [[Heq|[]]|_];
      [contradiction|].
    destruct (string_dec v v); [now left | contradiction]. }
  intros Hnil. rewrite Hnil in Hin. exact Hin.
Qed.

(** ** What the pruner does to the records *)

Lemma sublist_refl l : sublist l l.
Proof. induction l; [apply sublist_nil | now apply sublist_keep]. Qed.

Lemma sublist_trans l1 l2 l3 : sublist l1 l2 -> sublist l2 l3 -> sublist l1 l3.
Proof.
  intros H12 H23. revert l1 H12.
  induction H23 as [|x l2 l3 H IH|x l2 l3 H IH]; intros l1 H12.
  - exact H12.
  - constructor. now apply IH.
  - inversion H12; subst; constructor; now apply IH.
Qed.

Lemma sublist_In l1 l2 x : sublist l1 l2 -> In x l1 -> In x l2.
Proof.
  induction 1 as [|y l1 l2 H IH|y l1 l2 H IH]; simpl; intros Hin; auto.
  destruct Hin; auto.
Qed.

Lemma remove_first_sublist x l : sublist (remove_first x l) l.
Proof.
  induction l as [|y t IH]; simpl; [constructor|].
  destruct (string_dec y x); [constructor; apply sublist_refl|].
  now constructor.
Qed.

Lemma remove_first_other x y l :
  In y l -> y <> x -> In y (remove_first x l).
Proof.
  induction l as [|z t IH]; simpl; intros Hin Hne; [contradiction|].
  destruct (string_dec z x) as [->|Hzx].
  - destruct Hin as [<-|Hin]; [contradiction | exact Hin].
  - destruct Hin as [<-|Hin]; [now left | right; auto].
Qed.

Lemma pruned_from_refl G mods : Forall2 (pruned_from G) mods mods.
Proof.
  induction mods as [|m t IH]; constructor; auto.
  unfold pruned_from. repeat split; auto using sublist_refl.
Qed.

Lemma remove_dependent_pruned G source destination mods0 mods :
  (exists j, walk G (S (S j)) source destination) ->
  Forall2 (pruned_from G) mods0 mods ->
  Forall2 (pruned_from G) mods0 (remove_dependent source destination mods).
Proof.
  intros Hw. induction 1 as [|m0 m t0 t Hm Ht IH]; simpl; [constructor|].
  destruct (string_dec (name m) source) as [Hs|Hs].
  - constructor; [|exact Ht].
    destruct (in_dec string_dec destination (dependents m)) as [Hd|Hd];
      [|exact Hm].
    destruct Hm as [Hn [Hv [Hl [Hr [Hsub Hk]]]]].
    unfold pruned_from. simpl. repeat split; auto.
    + apply sublist_trans with (dependents m); auto.
      apply remove_first_sublist.
    + intros x Hx. destruct (Hk x Hx) as [Hin|Hj]; [|now right].
      destruct (string_dec x destination) as [->|Hne].
      * right. rewrite <- Hn, Hs. exact Hw.
      * left. now apply remove_first_other.
  - constructor; auto.
Qed.

Lemma removeModulesInIntermediatePaths_pruned
  G source destination succs mods0 mods mods' :
  Forall2 (pruned_from G) mods0 mods ->
  removeModulesInIntermediatePaths G source destination succs mods = Ok mods' ->
  Forall2 (pruned_from G) mods0 mods'.
Proof.
  intros H0 H. unfold removeModulesInIntermediatePaths in H.
  destruct (max_by_len (all_simple_paths G source destination)) as [p|] eqn:E;
    [|discriminate].
  injection H as <-. apply max_by_len_In in E.
  apply all_simple_paths_sound in E. destruct E as [Hc [_ [mid ->]]].
  rewrite interior_spec. destruct mid as [|n mid]; [exact H0|].
  assert (Hw : exists j, walk G (S (S j)) source destination).
  { exists (length mid). now apply (chain_walk G (n :: mid)). }
  generalize (n :: mid) as l. intros l. revert mods H0.
  induction l as [|x l IH]; simpl; intros mods H0; [exact H0|].
  apply IH. destruct (in_dec string_dec x succs); [|exact H0].
  now apply remove_dependent_pruned.
Qed.

(** ** Graphs that differ in node levels only *)

Lemma same_shape_refl B : same_shape B B.
Proof. split; reflexivity. Qed.

Lemma same_shape_trans B G G' :
  same_shape B G -> same_shape G G' -> same_shape B G'.
Proof. intros [H1 H2] [H3 H4]. split; congruence. Qed.

Lemma same_shape_successors B G u :
  same_shape B G -> successors G u = successors B u.
Proof. intros [H _]. unfold successors. now rewrite H. Qed.

Lemma same_shape_edge B G u v : same_shape B G -> edge G u v <-> edge B u v.
Proof. intros [H _]. unfold edge. now rewrite H. Qed.

Lemma same_shape_closed B G : same_shape B G -> closed B -> closed G.
Proof.
  intros [Ha Hn] Hc u v He. unfold edge in He. rewrite Ha in He.
  rewrite Hn. now apply Hc.
Qed.

Lemma same_shape_walk B G k u v :
  same_shape B G -> walk G k u v -> walk B k u v.
Proof.
  intros Hs. induction 1 as [u|k u x v Hux Hxv IH]; [constructor|].
  apply walk_cons with x; [now apply (same_shape_edge B G) | exact IH].
Qed.

Lemma same_shape_pruned B G m m' :
  same_shape B G -> pruned_from G m m' -> pruned_from B m m'.
Proof.
  intros Hs [Hn [Hv [Hl [Hr [Hsub Hk]]]]]. unfold pruned_from.
  repeat split; auto. intros x Hx. destruct (Hk x Hx) as [H|[j Hj]]; auto.
  right. exists j. now apply same_shape_walk with G.
Qed.

Lemma set_level_spec G n l G' :
  set_level G n l = Ok G' ->
  same_shape G G' /\
  forall k, lookup k (g_node G') =
            if string_dec k n then Some (Some l) else lookup k (g_node G).
Proof.
  unfold set_level. destruct (set_attr n l (g_node G)) as [ns|] eqn:E;
    [|discriminate].
  intros H. injection H as <-. apply set_attr_Some in E.
  destruct E as [Hm Hl]. split; [|exact Hl].
  split; [reflexivity | exact Hm].
Qed.

Lemma set_level_Ok G n l :
  In n (nodes G) -> exists G', set_level G n l = Ok G'.
Proof.
  intros H. unfold set_level.
  destruct (set_attr n l (g_node G)) as [ns|] eqn:E; [eauto|].
  apply set_attr_None in E. contradiction.
Qed.

(** ** Loops *)

Lemma foldM_all {A S : Type} (f : S -> A -> result S)
  (P : S -> Prop) (Q : A -> S -> Prop) (l : list A) :
  (forall s a s', In a l -> P s -> f s a = Ok s' ->
                  P s' /\ Q a s' /\ forall b, Q b s -> Q b s') ->
  forall s s', P s -> foldM f l s = Ok s' ->
               P s' /\ (forall a, In a l -> Q a s') /\
               forall b, Q b s -> Q b s'.
Proof.
  induction l as [|a t IH]; simpl; intros Hf s s' Hs H.
  - injection H as <-. split; [exact Hs|]. split; [intros a []|auto].
  - inv_bind H. destruct (Hf s a a0 (or_introl eq_refl) Hs Ha) as [HP [HQ Hm]].
    destruct (IH (fun s a s' Hin => Hf s a s' (or_intror Hin)) a0 s' HP H)
      as [HP' [HQ' Hm']].
    split; [exact HP'|]. split; [|auto].
    intros b [<-|Hb]; auto.
Qed.

Lemma foldM_Ok {A S : Type} (f : S -> A -> result S) (P : S -> Prop)
  (l : list A) :
  (forall s a, In a l -> P s -> exists s', f s a = Ok s' /\ P s') ->
  forall s, P s -> exists s', foldM f l s = Ok s' /\ P s'.
Proof.
  induction l as [|a t IH]; simpl; intros Hf s Hs.
  - eauto.
  - destruct (Hf s a (or_introl eq_refl) Hs) as [s1 [H1 HP1]].
    rewrite H1. simpl.
    apply (IH (fun s a Hin => Hf s a (or_intror Hin)) s1 HP1).
Qed.

(** ** One wave *)

Section Wave.

(** [B] is the graph as built, [base] the records as given, [G0] the
    graph when the wave starts, [F] its [processingList] and [lv] its
    level. *)
Variable B : DiGraph.
Variable base : list ModuleRecord.
Variable G0 : DiGraph.
Variable F : list string.
Variable lv : Z.

Lemma visit_step node succs successor st st' :
  In node F -> edge B node successor -> wave_inv B base G0 F lv st ->
  visit node succs lv st successor = Ok st' ->
  wave_inv B base G0 F lv st' /\ reached successor st' /\
  forall b, reached b st -> reached b st'.
Proof.
  intros HF He Hinv H. destruct st as [[G mods] temp].
  destruct Hinv as [Hs [Hp [Hin [Hout Hsrc]]]].
  unfold visit in H. inv_bind H. inv_bind H. injection H as <-.
  apply set_level_spec in Ha0. destruct Ha0 as [Hs' Hl].
  assert (Hp' : Forall2 (pruned_from B) base a).
  { assert (Hq : Forall2 (pruned_from G) base mods).
    { eapply Forall2_impl; [|exact Hp]. intros m m' Hm.
      apply same_shape_pruned with B; [|exact Hm].
      destruct Hs as [H1 H2]. split; congruence. }
    pose proof (removeModulesInIntermediatePaths_pruned _ _ _ _ _ _ _ Hq Ha)
      as Hq'.
    eapply Forall2_impl; [|exact Hq']. intros m m' Hm.
    now apply same_shape_pruned with G. }
  set (temp' := if in_dec string_dec successor temp then temp
                else temp ++ [successor]).
  assert (Ht : forall x, In x temp' <-> In x temp \/ x = successor).
  { intros x. unfold temp'.
    destruct (in_dec string_dec successor temp) as [Hi|Hi].
    - split; [auto|]. intros [Hx| ->]; auto.
    - rewrite in_app_iff. simpl. intuition. }
  split; [|split].
  - unfold wave_inv. split; [now apply same_shape_trans with G|].
    split; [exact Hp'|]. split; [|split].
    + intros k Hk. rewrite Hl. apply Ht in Hk.
      destruct (string_dec k successor); [reflexivity|].
      destruct Hk as [Hk|Hk]; [now apply Hin | contradiction].
    + intros k Hk. rewrite Hl.
      destruct (string_dec k successor) as [->|Hne].
      * exfalso. apply Hk, Ht. now right.
      * apply Hout. intros Hk'. apply Hk, Ht. now left.
    + intros x Hx. apply Ht in Hx. destruct Hx as [Hx| ->]; eauto.
  - unfold reached. simpl. apply Ht. now right.
  - unfold reached. simpl. intros b Hb. apply Ht. now left.
Qed.

Lemma process_node_step node st st' :
  In node F -> wave_inv B base G0 F lv st -> process_node lv st node = Ok st' ->
  wave_inv B base G0 F lv st' /\ (forall v, edge B node v -> reached v st') /\
  forall b, reached b st -> reached b st'.
Proof.
  intros HF Hinv H. unfold process_node in H.
  assert (Hsucc : successors (fst (fst st)) node = successors B node).
  { destruct st as [[G mods] temp]. simpl.
    apply same_shape_successors. apply Hinv. }
  rewrite Hsucc in H.
  assert (Hstep : forall s a s',
            In a (successors B node) -> wave_inv B base G0 F lv s ->
            visit node (successors B node) lv s a = Ok s' ->
            wave_inv B base G0 F lv s' /\ reached a s' /\
            forall b, reached b s -> reached b s').
  { intros s a s' Ha Hs Hv.
    apply (visit_step node (successors B node) a s s'); auto.
    now apply in_successors. }
  destruct (foldM_all _ (wave_inv B base G0 F lv) reached _ Hstep st st' Hinv H)
    as [HP [HQ Hm]].
  split; [exact HP|]. split; [|exact Hm].
  intros v Hv. apply HQ. now apply in_successors.
Qed.

Lemma wave_spec mods G' mods' temp :
  same_shape B G0 -> Forall2 (pruned_from B) base mods ->
  wave G0 mods F lv = Ok (G', mods', temp) ->
  same_shape B G' /\
  Forall2 (pruned_from B) base mods' /\
  (forall k, lookup k (g_node G') =
             if in_dec string_dec k temp then Some (Some lv)
             else lookup k (g_node G0)) /\
  (forall x, In x temp <-> exists u, In u F /\ edge B u x).
Proof.
  intros Hs Hp H. unfold wave in H.
  set (Q := fun node (st : wave_state) =>
              forall v, edge B node v -> reached v st).
  assert (Hstep : forall s a s', In a F -> wave_inv B base G0 F lv s ->
            process_node lv s a = Ok s' ->
            wave_inv B base G0 F lv s' /\ Q a s' /\ forall b, Q b s -> Q b s').
  { intros s a s' Ha Hinv Hv.
    destruct (process_node_step a s s' Ha Hinv Hv) as [H1 [H2 H3]].
    split; [exact H1|]. split; [exact H2|]. intros b Hb v Hv'. auto. }
  assert (Hinit : wave_inv B base G0 F lv (G0, mods, [])).
  { unfold wave_inv. split; [exact Hs|]. split; [exact Hp|].
    split; [intros k []|]. split; [reflexivity | intros x []]. }
  destruct (foldM_all _ (wave_inv B base G0 F lv) Q _ Hstep _ _ Hinit H)
    as [HP [HQ _]].
  destruct HP as [Hs' [Hp' [Hin [Hout Hsrc]]]].
  split; [exact Hs'|]. split; [exact Hp'|]. split.
  - intros k. destruct (in_dec string_dec k temp); auto.
  - intros x. split; [apply Hsrc|].
    intros [u [Hu He]]. apply (HQ u Hu x He).
Qed.

(** In an acyclic graph a wave raises nothing. *)
Lemma visit_Ok node succs successor st :
  closed B -> acyclic B -> edge B node successor ->
  same_shape B (fst (fst st)) ->
  exists st', visit node succs lv st successor = Ok st' /\
              same_shape B (fst (fst st')).
Proof.
  intros Hc Hac He Hs. destruct st as [[G mods] temp]. simpl in Hs.
  unfold visit.
  assert (Hne : node <> successor).
  { intros ->. apply (Hac O successor).
    apply walk_cons with successor; [exact He | constructor]. }
  assert (HeG : edge G node successor) by now apply (same_shape_edge B G).
  assert (HcG : closed G) by now apply same_shape_closed with B.
  destruct (max_by_len_Some _ (all_simple_paths_edge G _ _ HcG HeG Hne))
    as [p Hp].
  unfold removeModulesInIntermediatePaths. rewrite Hp. simpl.
  destruct (set_level_Ok G successor lv) as [G' HG'];
    [apply (HcG node successor HeG)|].
  rewrite HG'. simpl. eexists. split; [reflexivity|]. simpl.
  apply set_level_spec in HG'. now apply same_shape_trans with G.
Qed.

Lemma process_node_Ok node st :
  closed B -> acyclic B -> same_shape B (fst (fst st)) ->
  exists st', process_node lv st node = Ok st' /\
              same_shape B (fst (fst st')).
Proof.
  intros Hc Hac Hs. unfold process_node.
  rewrite (same_shape_successors B _ node Hs).
  apply (foldM_Ok _ (fun st => same_shape B (fst (fst st)))); auto.
  intros s a Ha HP. apply visit_Ok; auto. now apply in_successors.
Qed.

Lemma wave_Ok mods :
  closed B -> acyclic B -> same_shape B G0 ->
  exists st', wave G0 mods F lv = Ok st'.
Proof.
  intros Hc Hac Hs. unfold wave.
  assert (Hstep : forall s a, In a F -> same_shape B (fst (fst s)) ->
            exists s', process_node lv s a = Ok s' /\
                       same_shape B (fst (fst s'))).
  { intros s a _ HP. now apply process_node_Ok. }
  destruct (foldM_Ok _ (fun st => same_shape B (fst (fst st))) F Hstep
              (G0, mods, []) Hs) as [st' [H _]].
  eauto.
Qed.

End Wave.

(** ** The [while] loop *)

Section Loop.

Variable B : DiGraph.
Variable base : list ModuleRecord.

Lemma while_loop_spec fuel :
  forall G mods F lv G' mods',
    same_shape B G -> Forall2 (pruned_from B) base mods ->
    while_loop fuel G mods F lv = Ok (G', mods') ->
    same_shape B G' /\ Forall2 (pruned_from B) base mods' /\
    forall v, loop_post B G F lv G' v.
Proof.
  induction fuel as [|fuel IH]; intros G mods F lv G' mods' Hs Hp H.
  - destruct F as [|u F]; simpl in H; [|discriminate].
    injection H as <- <-. split; [exact Hs|]. split; [exact Hp|].
    intros v. left. split; [reflexivity | intros u j []].
  - destruct F as [|u0 F0]; cbn [while_loop] in H.
    + injection H as <- <-. split; [exact Hs|]. split; [exact Hp|].
      intros v. left. split; [reflexivity | intros u j []].
    + remember (u0 :: F0) as F eqn:EF. clear EF.
      inv_bind H. destruct a as [[G1 mods1] temp]. cbv zeta in H.
      destruct (wave_spec B base G F lv mods G1 mods1 temp Hs Hp Ha)
        as [Hs1 [Hp1 [Hl1 Ht1]]].
      destruct (IH G1 mods1 temp (lv + 1) G' mods' Hs1 Hp1 H)
        as [Hs' [Hp' Hpost]].
      split; [exact Hs'|]. split; [exact Hp'|].
      intros v. specialize (Hl1 v).
      destruct (Hpost v) as [[Heq Hno]|[u1 [j [Hu1 [Hw [Hlv Hmax]]]]]].
      * destruct (in_dec string_dec v temp) as [Hv|Hv].
        -- right. apply Ht1 in Hv. destruct Hv as [u [Hu He]].
           exists u, O. split; [exact Hu|]. split.
           ++ apply walk_cons with v; [exact He | constructor].
           ++ split.
              ** rewrite Heq, Hl1. simpl. now rewrite Z.add_0_r.
              ** intros u' j' Hu' Hw'. destruct j' as [|j']; [lia|].
                 exfalso. apply walk_S_inv in Hw'.
                 destruct Hw' as [x [Hx Hw']].
                 apply (Hno x j'); [|exact Hw'].
                 apply Ht1. now exists u'.
        -- left. split; [congruence|].
           intros u j Hu Hw. apply walk_S_inv in Hw.
           destruct Hw as [x [Hx Hw]].
           assert (Hxt : In x temp) by (apply Ht1; now exists u).
           destruct j as [|j].
           ++ apply walk_O_inv in Hw. subst x. contradiction.
           ++ exact (Hno x j Hxt Hw).
      * right. apply Ht1 in Hu1. destruct Hu1 as [u [Hu He]].
        exists u, (S j). split; [exact Hu|]. split.
        -- now apply walk_cons with u1.
        -- split.
           ++ rewrite Hlv. do 2 f_equal. lia.
           ++ intros u' j' Hu' Hw'. destruct j' as [|j']; [lia|].
              apply walk_S_inv in Hw'. destruct Hw' as [x [Hx Hw']].
              assert (Hxt : In x temp) by (apply Ht1; now exists u').
              pose proof (Hmax x j' Hxt Hw'). lia.
Qed.

Lemma while_loop_mono fuel :
  forall fuel' G mods F lv r,
    (fuel <= fuel')%nat ->
    while_loop fuel G mods F lv = Ok r ->
    while_loop fuel' G mods F lv = Ok r.
Proof.
  induction fuel as [|fuel IH]; intros fuel' G mods F lv r Hle H.
  - destruct F; simpl in H; [|discriminate].
    destruct fuel'; exact H.
  - destruct F as [|u0 F0]; [destruct fuel'; exact H|].
    destruct fuel' as [|fuel']; [lia|].
    cbn [while_loop] in *. inv_bind H. rewrite Ha. simpl.
    destruct a as [[G1 mods1] temp]. apply IH; [lia | exact H].
Qed.

(** On an acyclic graph the loop ends, within as many waves as there
    are edges and one more. *)
Lemma while_loop_Ok :
  closed B -> acyclic B ->
  forall d n fuel G mods F lv,
    same_shape B G ->
    (length (g_adj B) < n + d)%nat -> (d <= fuel)%nat ->
    (forall u, In u F -> exists r, walk B n r u) ->
    exists r, while_loop fuel G mods F lv = Ok r.
Proof.
  intros Hc Hac. induction d as [|d IH]; intros n fuel G mods F lv Hs Hn Hd HF.
  - destruct F as [|u F].
    + destruct fuel; simpl; eauto.
    + exfalso. destruct (HF u (or_introl eq_refl)) as [r Hr].
      apply (walk_bound B n r u Hac) in Hr. lia.
  - destruct F as [|u0 F0]; [destruct fuel; simpl; eauto|].
    destruct fuel as [|fuel]; [lia|].
    remember (u0 :: F0) as F eqn:EF.
    destruct (wave_Ok B G F lv mods Hc Hac Hs) as [[[G1 mods1] temp] Hw].
    destruct (wave_spec B mods G F lv mods G1 mods1 temp Hs
                (pruned_from_refl B mods) Hw) as [Hs1 [_ [_ Ht1]]].
    destruct (IH (S n) fuel G1 mods1 temp (lv + 1) Hs1) as [r Hr].
    + lia.
    + lia.
    + intros x Hx. apply Ht1 in Hx. destruct Hx as [u [Hu He]].
      destruct (HF u Hu) as [r Hr]. exists r. now apply walk_snoc with u.
    + exists r. rewrite EF. cbn [while_loop]. rewrite <- EF, Hw.
      simpl. exact Hr.
Qed.

End Loop.

(** ** The last loop *)

Lemma write_levels_spec G mods out :
  write_levels G mods = Ok out ->
  Forall2 (fun m m' => m' = with_level m (level m') /\
                       lookup (name m) (g_node G) = Some (Some (level m')))
          mods out.
Proof.
  revert out. induction mods as [|m t IH]; simpl; intros out H.
  - injection H as <-. constructor.
  - inv_bind H. inv_bind H. injection H as <-. constructor; [|now apply IH].
    simpl. split; [reflexivity|]. unfold get_level in Ha.
    destruct (lookup (name m) (g_node G)) as [[l|]|]; try discriminate.
    now injection Ha as ->.
Qed.

Lemma write_levels_Ok G mods :
  (forall m, In m mods ->
             exists l, lookup (name m) (g_node G) = Some (Some l)) ->
  exists out, write_levels G mods = Ok out.
Proof.
  induction mods as [|m t IH]; simpl; intros H; [eauto|].
  destruct (H m (or_introl eq_refl)) as [l Hl].
  unfold get_level. rewrite Hl. simpl.
  destruct IH as [out Hout]; [intros m' Hm'; apply H; now right|].
  rewrite Hout. simpl. eauto.
Qed.

(** ** The whole computation *)

Lemma Forall2_In_r {A B : Type} (R : A -> B -> Prop) l1 l2 b :
  Forall2 R l1 l2 -> In b l2 -> exists a, In a l1 /\ R a b.
Proof.
  induction 1 as [|x y l1 l2 Hxy H IH]; simpl; intros Hin; [contradiction|].
  destruct Hin as [<-|Hin]; [eauto|].
  destruct (IH Hin) as [a [Ha HR]]. eauto.
Qed.

Lemma Forall2_In_l {A B : Type} (R : A -> B -> Prop) l1 l2 a :
  Forall2 R l1 l2 -> In a l1 -> exists b, In b l2 /\ R a b.
Proof.
  induction 1 as [|x y l1 l2 Hxy H IH]; simpl; intros Hin; [contradiction|].
  destruct Hin as [<-|Hin]; [eauto|].
  destruct (IH Hin) as [b [Hb HR]]. eauto.
Qed.

Lemma Forall2_compose {A B C : Type} (R : A -> B -> Prop) (T : B -> C -> Prop)
  l1 l2 l3 :
  Forall2 R l1 l2 -> Forall2 T l2 l3 ->
  Forall2 (fun a c => exists b, R a b /\ T b c) l1 l3.
Proof.
  intros H. revert l3. induction H as [|x y l1 l2 Hxy H IH]; intros l3 H3.
  - inversion H3; subst. constructor.
  - inversion H3; subst. constructor; eauto.
Qed.

Lemma Forall2_impl_In {A B : Type} (R T : A -> B -> Prop) l1 l2 :
  (forall a b, In a l1 -> R a b -> T a b) ->
  Forall2 R l1 l2 -> Forall2 T l1 l2.
Proof.
  intros Himp H. induction H as [|x y l1 l2 Hxy H IH]; constructor.
  - apply Himp; [now left | exact Hxy].
  - apply IH. intros a b Ha. apply Himp. now right.
Qed.

Lemma calculateLevels_spec fuel names mods out :
  calculateLevels fuel names mods = Ok out ->
  let B := build_graph names mods in
  exists G',
    same_shape B G' /\
    (forall v, loop_post B B (initial_list B) 2 G' v) /\
    Forall2 (leveled B G') mods out.
Proof.
  intros H B. unfold calculateLevels in H. fold B in H.
  inv_bind H. destruct a as [G' mods']. cbv zeta in H.
  destruct (while_loop_spec B mods fuel B mods (initial_list B) 2 G' mods'
              (same_shape_refl B) (pruned_from_refl B mods) Ha)
    as [Hs [Hp Hpost]].
  exists G'. split; [exact Hs|]. split; [exact Hpost|].
  apply write_levels_spec in H.
  pose proof (Forall2_compose _ _ _ _ _ Hp H) as Hc.
  eapply Forall2_impl; [|exact Hc]. clear.
  intros m m' [m1 [[Hn [Hv [Hl [Hr [Hsub Hk]]]]] [Hm' Hlk]]].
  unfold leveled. rewrite Hm'. simpl. rewrite Hn in Hlk.
  repeat split; auto.
Qed.

Lemma calculateLevels_mono fuel fuel' names mods out :
  (fuel <= fuel')%nat ->
  calculateLevels fuel names mods = Ok out ->
  calculateLevels fuel' names mods = Ok out.
Proof.
  intros Hle H. unfold calculateLevels in *. inv_bind H.
  rewrite (while_loop_mono fuel fuel' _ _ _ _ _ Hle Ha). exact H.
Qed.

(** A root with an outgoing edge is where the propagation starts. *)
Lemma root_start B r j v :
  closed B -> root B r -> walk B (S j) r v -> In r (initial_list B).
Proof.
  intros Hc Hr Hw. apply walk_S_inv in Hw. destruct Hw as [x [Hx _]].
  apply in_initial_list. split; [apply (Hc r x Hx)|].
  split; [exact Hr | now apply out_degree_pos with x].
Qed.

(** The level the loop leaves on a node that started at level 1 is one
    more than the hops of a longest walk from a root to it. *)
Lemma level_char B G' v l :
  closed B -> acyclic B ->
  lookup v (g_node B) = Some (Some 1) ->
  loop_post B B (initial_list B) 2 G' v ->
  lookup v (g_node G') = Some (Some l) ->
  exists k, l = 1 + Z.of_nat k /\ longest_from_root B v k.
Proof.
  intros Hc Hac Hv Hpost Hl.
  destruct Hpost as [[Heq Hno]|[u [j [Hu [Hw [Hlv Hmax]]]]]].
  - exists O. split; [rewrite Heq, Hv in Hl; now injection Hl as <-|].
    assert (Hroot : root B v).
    { destruct (Nat.eq_dec (in_degree B v) O) as [Hz|Hnz]; [exact Hz|].
      exfalso. destruct (in_degree_pos B v Hnz) as [p Hp].
      destruct (walk_back_to_root B Hac (S (length (g_adj B))) 1%nat p v)
        as [r [i [Hr [Hi Hle]]]].
      - lia.
      - apply walk_cons with v; [exact Hp | constructor].
      - destruct i as [|i]; [lia|].
        apply (Hno r i); [|exact Hi]. now apply root_start with i v. }
    split.
    + exists v. split; [exact Hroot | constructor].
    + intros r' k' Hr' Hw'. destruct k' as [|k']; [lia|].
      exfalso. apply (Hno r' k'); [|exact Hw']. now apply root_start with k' v.
  - exists (S j).
    assert (El : l = 2 + Z.of_nat j) by congruence.
    split; [lia|].
    split.
    + exists u. split; [|exact Hw]. apply in_initial_list in Hu. tauto.
    + intros r' k' Hr' Hw'. destruct k' as [|k']; [lia|].
      pose proof (Hmax r' k' (root_start B r' k' v Hc Hr' Hw') Hw'). lia.
Qed.

Lemma calculateLevels_longest fuel names mods out :
  let B := build_graph names mods in
  acyclic B -> incl (map name mods) names ->
  calculateLevels fuel names mods = Ok out ->
  Forall2 (fun m m' => pruned_from B m (with_level m' (level m)) /\
             exists k, level m' = 1 + Z.of_nat k /\
                       longest_from_root B (name m) k)
          mods out.
Proof.
  intros B Hac Hnames H.
  destruct (calculateLevels_spec _ _ _ _ H) as [G' [Hs [Hpost Hlev]]].
  fold B in Hs, Hpost, Hlev.
  eapply Forall2_impl_In; [|exact Hlev].
  intros m m' Hin Hm.
  assert (Hm_in : In (name m) names) by (apply Hnames; now apply in_map).
  destruct Hm as [Hn [Hv [Hr [Hsub [Hk Hl]]]]]. split.
  - unfold pruned_from. simpl. repeat split; auto.
  - apply level_char with G'; auto.
    + apply build_graph_closed.
    + now apply build_graph_level.
Qed.

Lemma calculateLevels_Ok names mods :
  let B := build_graph names mods in
  acyclic B -> incl (map name mods) names ->
  exists out, forall fuel, (length (g_adj B) < fuel)%nat ->
                           calculateLevels fuel names mods = Ok out.
Proof.
  intros B Hac Hnames.
  pose proof (build_graph_closed names mods) as Hc. fold B in Hc.
  destruct (while_loop_Ok B Hc Hac (S (length (g_adj B))) O
              (S (length (g_adj B))) B mods (initial_list B) 2
              (same_shape_refl B)) as [[G' mods'] Hw].
  - lia.
  - lia.
  - intros u _. exists u. constructor.
  - destruct (while_loop_spec B mods _ B mods (initial_list B) 2 G' mods'
                (same_shape_refl B) (pruned_from_refl B mods) Hw)
      as [Hs [Hp Hpost]].
    destruct (write_levels_Ok G' mods') as [out Hout].
    + intros m' Hm'. destruct (Forall2_In_r _ _ _ _ Hp Hm') as [m [Hm HR]].
      destruct HR as [Hn _]. rewrite Hn.
      assert (HB : lookup (name m) (g_node B) = Some (Some 1)).
      { apply build_graph_level. apply Hnames. now apply in_map. }
      destruct (Hpost (name m)) as [[Heq _]|[u [j [_ [_ [Hlv _]]]]]].
      * exists 1. congruence.
      * eauto.
    + exists out. intros fuel Hfuel.
      apply calculateLevels_mono with (S (length (g_adj B))); [lia|].
      unfold calculateLevels. fold B. rewrite Hw. simpl. exact Hout.
Qed.

(** ** Levels of the graph as built *)

Lemma add_nodes_levels_from names :
  forall G all, levels_from all G -> incl names all ->
                levels_from all (add_nodes names G).
Proof.
  unfold add_nodes. induction names as [|n t IH]; simpl; intros G all HG Hi.
  - exact HG.
  - apply IH; [|intros x Hx; apply Hi; now right].
    intros k l Hk. rewrite add_node_lookup in Hk.
    destruct (string_dec k n) as [->|Hne].
    + injection Hk as <-. split; [reflexivity | apply Hi; now left].
    + now apply HG.
Qed.

Lemma touch_node_levels_from names G n :
  levels_from names G -> levels_from names (touch_node G n).
Proof.
  intros HG k l Hk. unfold touch_node in Hk.
  destruct (in_dec string_dec n (nodes G)) as [Hin|Hin]; [now apply HG|].
  simpl in Hk. rewrite lookup_app in Hk.
  destruct (lookup k (g_node G)) as [a|] eqn:E.
  - apply HG. congruence.
  - simpl in Hk. destruct (string_dec n k); discriminate.
Qed.

Lemma add_edge_levels_from names G u v :
  levels_from names G -> levels_from names (add_edge G u v).
Proof.
  intros HG k l Hk. rewrite add_edge_nodes in Hk.
  revert k l Hk. now apply touch_node_levels_from, touch_node_levels_from.
Qed.

Lemma build_graph_levels_from names mods :
  levels_from names (build_graph names mods).
Proof.
  unfold build_graph.
  assert (H0 : levels_from names (add_nodes names empty_graph)).
  { apply add_nodes_levels_from; [|apply incl_refl].
    intros k l Hk. discriminate. }
  revert H0. generalize (add_nodes names empty_graph).
  induction mods as [|m t IH]; simpl; intros G HG; [exact HG|].
  apply IH. unfold add_edges_of. generalize (name m). intros u.
  revert G HG. induction (dependents m) as [|d ds IHd]; simpl; intros G HG.
  - exact HG.
  - now apply IHd, add_edge_levels_from.
Qed.

(** A dependent that is no listed module becomes a node without level. *)
Lemma build_graph_foreign names mods m d :
  In m mods -> In d (dependents m) -> ~ In d names ->
  lookup d (g_node (build_graph names mods)) = Some None.
Proof.
  intros Hm Hd Hn.
  assert (He : edge (build_graph names mods) (name m) d).
  { apply build_graph_edge. now exists m. }
  destruct (build_graph_closed names mods _ _ He) as [_ Hin].
  destruct (lookup d (g_node (build_graph names mods))) as [[l|]|] eqn:E.
  - destruct (build_graph_levels_from names mods d l E). contradiction.
  - reflexivity.
  - apply lookup_None in E. contradiction.
Qed.

Lemma walk_last G k u w :
  walk G (S k) u w -> exists x, walk G k u x /\ edge G x w.
Proof.
  revert u. induction k as [|k IH]; intros u H.
  - apply walk_S_inv in H. destruct H as [v [Hv H]].
    apply walk_O_inv in H. subst v. exists u. split; [constructor | exact Hv].
  - apply walk_S_inv in H. destruct H as [v [Hv H]].
    destruct (IH v H) as [x [Hx He]]. exists x.
    split; [now apply walk_cons with v | exact He].
Qed.

(** ** Checking that a graph is acyclic *)

Lemma hops_walk G n a b l : walk G n a b -> In a l -> In b (hops G n l).
Proof.
  intros H. revert l. induction H as [u|k u v w Huv Hvw IH]; intros l Hl.
  - exact Hl.
  - simpl. apply IH. apply in_flat_map. exists u.
    split; [exact Hl | now apply in_successors].
Qed.

Lemma walk_prefix G n d u w : walk G (n + d) u w -> exists c, walk G n u c.
Proof.
  revert u. induction n as [|n IH]; simpl; intros u H.
  - exists u. constructor.
  - apply walk_S_inv in H. destruct H as [v [Hv H]].
    destruct (IH v H) as [c Hc]. exists c. now apply walk_cons with v.
Qed.

Lemma cycle_pump G k u n : walk G (S k) u u -> walk G (n * S k) u u.
Proof.
  intros H. induction n as [|n IH]; simpl.
  - constructor.
  - change (S (k + n * S k)) with (S k + n * S k)%nat.
    now apply walk_app with u.
Qed.

Lemma acyclicb_sound G : acyclicb G = true -> acyclic G.
Proof.
  unfold acyclicb. intros H k u Hw.
  set (n := S (length (g_adj G))) in *.
  assert (Hsrc : In u (map fst (g_adj G))).
  { pose proof Hw as Hw'. apply walk_S_inv in Hw'.
    destruct Hw' as [v [Hv _]].
    apply in_map_iff. exists (u, v). split; [reflexivity | exact Hv]. }
  pose proof (cycle_pump G k u n Hw) as Hp.
  assert (Hlen : (n * S k = n + n * k)%nat) by lia.
  rewrite Hlen in Hp. apply walk_prefix in Hp. destruct Hp as [c Hc].
  pose proof (hops_walk G n u c _ Hc Hsrc) as Hin.
  destruct (hops G n (map fst (g_adj G))); [exact Hin | discriminate].
Qed.

(** * The claims *)

(** ** The example of three modules *)

(** C4. On the modules A, B and C, where A has the dependents B and C and
    B has the dependent C, the computation gives A level 1, B level 2 and
    C level 3, and A keeps B as its only dependent: C has been pruned
    from A's dependents.  Versions, release flags and the levels the
    records come in with play no part, and any fuel from three waves on
    is enough. *)
Theorem calculateLevels_abc vA vB vC lA lB lC rA rB rC fuel :
  calculateLevels (3 + fuel) abc_names (abc vA vB vC lA lB lC rA rB rC) =
  Ok [ mkModule "A" vA 1 rA ["B"]%string;
       mkModule "B" vB 2 rB ["C"]%string;
       mkModule "C" vC 3 rC [] ].
Proof.
  apply calculateLevels_mono with 3%nat; [lia | reflexivity].
Qed.

(** ** Names outside the module list *)

(** C2, as stated, fails: A lists the dependent X, which is no module of
    the run, and the computation returns a result all the same. *)
Lemma foreign_dependent_not_rejected :
  (exists m, In m foreign_mods /\ In "X"%string (dependents m)) /\
  ~ In "X"%string foreign_names /\
  calculateLevels 2 foreign_names foreign_mods =
  Ok [ mkModule "A" "1.0.0" 1 true ["X"]%string ].
Proof.
  split; [|split; [|reflexivity]].
  - exists (mkModule "A" "1.0.0" 0 true ["X"]%string).
    split; simpl; auto.
  - intros [H|[]]. discriminate.
Qed.

(** C2, amended.  Graph construction has no failure: every entry of a
    record's dependents becomes an edge from the record's module and a
    node of the graph; an entry that is no listed module name becomes a
    node without a level.  Such entries do not stop the run either: when
    the graph is acyclic and the records are those of listed modules, the
    computation returns. *)
Theorem build_graph_accepts_foreign names mods :
  (forall m d, In m mods -> In d (dependents m) ->
     edge (build_graph names mods) (name m) d /\
     In d (nodes (build_graph names mods)) /\
     (~ In d names ->
      lookup d (g_node (build_graph names mods)) = Some None)) /\
  (acyclic (build_graph names mods) -> incl (map name mods) names ->
   exists out, forall fuel,
     (length (g_adj (build_graph names mods)) < fuel)%nat ->
     calculateLevels fuel names mods = Ok out).
Proof.
  split.
  - intros m d Hm Hd.
    assert (He : edge (build_graph names mods) (name m) d).
    { apply build_graph_edge. now exists m. }
    split; [exact He|]. split.
    + apply (build_graph_closed names mods _ _ He).
    + intros Hn. now apply build_graph_foreign with m.
  - apply calculateLevels_Ok.
Qed.

Lemma build_graph_accepts_foreign_witness :
  (In (mkModule "A" "1.0.0" 0 true ["X"]%string) foreign_mods /\
   In "X"%string (dependents (mkModule "A" "1.0.0" 0 true ["X"]%string)) /\
   ~ In "X"%string foreign_names /\
   edge (build_graph foreign_names foreign_mods) "A" "X" /\
   In "X"%string (nodes (build_graph foreign_names foreign_mods)) /\
   lookup "X" (g_node (build_graph foreign_names foreign_mods)) = Some None) /\
  acyclic (build_graph foreign_names foreign_mods) /\
  incl (map name foreign_mods) foreign_names /\
  exists out, forall fuel,
    (length (g_adj (build_graph foreign_names foreign_mods)) < fuel)%nat ->
    calculateLevels fuel foreign_names foreign_mods = Ok out.
Proof.
  assert (Hm : In (mkModule "A" "1.0.0" 0 true ["X"]%string) foreign_mods)
    by (simpl; auto).
  assert (Hd : In "X"%string
                 (dependents (mkModule "A" "1.0.0" 0 true ["X"]%string)))
    by (simpl; auto).
  assert (Hx : ~ In "X"%string foreign_names)
    by (intros [H|[]]; discriminate H).
  assert (Hac : acyclic (build_graph foreign_names foreign_mods))
    by (apply acyclicb_sound; vm_compute; reflexivity).
  assert (Hin : incl (map name foreign_mods) foreign_names)
    by (intros x H; exact H).
  destruct (build_graph_accepts_foreign foreign_names foreign_mods)
    as [Hedge Hrun].
  destruct (Hedge _ _ Hm Hd) as [He [Hn Hl]].
  split; [|split; [exact Hac | split; [exact Hin | exact (Hrun Hac Hin)]]].
  repeat split; auto.
Defined.

(** ** Levels rise, dependents shrink *)

Lemma pruned_shrunk G mods mods' :
  Forall2 (pruned_from G) mods mods' -> shrunk mods mods'.
Proof.
  intros H. eapply Forall2_impl; [|exact H].
  intros m m' Hm. apply Hm.
Qed.

Lemma visit_raises node succs lv G mods temp successor G' mods' temp' :
  levels_below lv G ->
  visit node succs lv (G, mods, temp) successor = Ok (G', mods', temp') ->
  raised G G' /\ levels_below lv G' /\ shrunk mods mods'.
Proof.
  intros Hb H. unfold visit in H. inv_bind H. inv_bind H.
  injection H as <- <- _. apply set_level_spec in Ha0.
  destruct Ha0 as [_ Hl]. split; [|split].
  - intros k l Hk. rewrite Hl. destruct (string_dec k successor).
    + exists lv. split; [reflexivity | now apply Hb with k].
    + exists l. split; [exact Hk | lia].
  - intros k l Hk. rewrite Hl in Hk. destruct (string_dec k successor).
    + injection Hk as <-. lia.
    + now apply Hb with k.
  - apply pruned_shrunk with G.
    apply (removeModulesInIntermediatePaths_pruned
             G node successor succs mods mods a (pruned_from_refl G mods) Ha).
Qed.

Lemma while_loop_raises fuel G mods F lv G' mods' :
  levels_below lv G ->
  while_loop fuel G mods F lv = Ok (G', mods') ->
  raised G G' /\ shrunk mods mods'.
Proof.
  intros Hb H.
  destruct (while_loop_spec G mods fuel G mods F lv G' mods'
              (same_shape_refl G) (pruned_from_refl G mods) H)
    as [_ [Hp Hpost]].
  split; [|now apply pruned_shrunk with G].
  intros k l Hk.
  destruct (Hpost k) as [[Heq _]|[u [j [_ [_ [Hlv _]]]]]].
  - exists l. split; [congruence | lia].
  - exists (lv + Z.of_nat j). split; [exact Hlv|].
    pose proof (Hb k l Hk). lia.
Qed.

(** C3, as stated, fails: the level field of a record just created is 0,
    not 1. *)
Lemma record_level_starts_at_zero :
  exists m,
    In m (initializeModuleDetails (fun _ => "1.0.0"%string) ["A"%string]) /\
    level m = 0 /\ level m <> 1.
Proof.
  eexists. split; [now left|]. simpl. split; [reflexivity | discriminate].
Qed.

(** C3, amended.  A record is created with level 0 and no dependents,
    while the node of every listed module enters the graph at level 1 and
    no node is higher.  Each assignment of the propagation leaves every
    node level where it was or higher and below the next wave's level,
    the whole loop does, and the level finally written to a record is at
    least 1.  Each pruning leaves every record's dependents a sublist of
    what they were, and so does the whole computation. *)
Theorem levels_raised_dependents_shrunk :
  (forall getVersion names m,
     In m (initializeModuleDetails getVersion names) ->
     level m = 0 /\ dependents m = []) /\
  (forall names mods n,
     In n names ->
     lookup n (g_node (build_graph names mods)) = Some (Some 1)) /\
  (forall names mods, levels_below 2 (build_graph names mods)) /\
  (forall node succs lv G mods temp successor G' mods' temp',
     levels_below lv G ->
     visit node succs lv (G, mods, temp) successor = Ok (G', mods', temp') ->
     raised G G' /\ levels_below lv G' /\ shrunk mods mods') /\
  (forall fuel G mods F lv G' mods',
     levels_below lv G ->
     while_loop fuel G mods F lv = Ok (G', mods') ->
     raised G G' /\ shrunk mods mods') /\
  (forall fuel names mods out,
     calculateLevels fuel names mods = Ok out ->
     Forall2 (fun m m' => 1 <= level m' /\
                          sublist (dependents m') (dependents m))
             mods out).
Proof.
  split; [|split; [|split; [|split; [|split]]]].
  - intros getVersion names m Hm. unfold initializeModuleDetails in Hm.
    apply in_map_iff in Hm. destruct Hm as [n [<- _]]. split; reflexivity.
  - intros names mods n. apply build_graph_level.
  - intros names mods k l Hk.
    destruct (build_graph_levels_from names mods k l Hk) as [-> _]. lia.
  - apply visit_raises.
  - apply while_loop_raises.
  - intros fuel names mods out H.
    destruct (calculateLevels_spec _ _ _ _ H) as [G' [_ [Hpost Hlev]]].
    eapply Forall2_impl; [|exact Hlev].
    intros m m' [_ [_ [_ [Hsub [_ Hl]]]]]. split; [|exact Hsub].
    destruct (Hpost (name m)) as [[Heq _]|[u [j [_ [_ [Hlv _]]]]]].
    + rewrite Heq in Hl.
      destruct (build_graph_levels_from names mods _ _ Hl) as [-> _]. lia.
    + assert (El : level m' = 2 + Z.of_nat j) by congruence. lia.
Qed.

Lemma levels_raised_dependents_shrunk_witness :
  calculateLevels 3 abc_names abc0 = Ok abc_out /\
  Forall2 (fun m m' => 1 <= level m' /\
                       sublist (dependents m') (dependents m))
          abc0 abc_out.
Proof.
  assert (Hrun : calculateLevels 3 abc_names abc0 = Ok abc_out)
    by reflexivity.
  split; [exact Hrun|].
  exact (proj2 (proj2 (proj2 (proj2 (proj2
           levels_raised_dependents_shrunk))))
           3%nat abc_names abc0 abc_out Hrun).
Defined.

(** ** Levels are longest paths *)

(** C1. On an acyclic graph, the records being those of listed modules,
    the computation returns, with any fuel above the number of edges,
    and in its result: whenever B is still among the dependents of A,
    the level of B is strictly above the level of A; and the level of
    every module is 1 plus the number of hops of a longest walk from a
    root, a node of in-degree zero, to it (on an acyclic graph every
    module is reached from a root, and walks are paths). *)
Theorem calculateLevels_longest_path names mods :
  acyclic (build_graph names mods) ->
  incl (map name mods) names ->
  exists out,
    (forall fuel, (length (g_adj (build_graph names mods)) < fuel)%nat ->
                  calculateLevels fuel names mods = Ok out) /\
    (forall a b, In a out -> In b out -> In (name b) (dependents a) ->
                 level a < level b) /\
    (forall b, In b out ->
       exists k, level b = 1 + Z.of_nat k /\
                 longest_from_root (build_graph names mods) (name b) k).
Proof.
  intros Hac Hnames.
  destruct (calculateLevels_Ok names mods Hac Hnames) as [out Hout].
  exists out. split; [exact Hout|].
  pose proof (calculateLevels_longest _ names mods out Hac Hnames
                (Hout _ (Nat.lt_succ_diag_r _))) as HF.
  set (B := build_graph names mods) in *.
  assert (Hchar : forall b, In b out ->
            exists b0 k, In b0 mods /\ name b = name b0 /\
              sublist (dependents b) (dependents b0) /\
              level b = 1 + Z.of_nat k /\ longest_from_root B (name b) k).
  { intros b Hb. destruct (Forall2_In_r _ _ _ _ HF Hb) as [b0 [Hb0 [Hp Hk]]].
    destruct Hk as [k [Hl Hlong]].
    destruct Hp as [Hn [_ [_ [_ [Hsub _]]]]]. simpl in Hn, Hsub.
    exists b0, k. rewrite Hn. auto. }
  split.
  - intros a b Ha Hb Hdep.
    destruct (Hchar a Ha) as [a0 [ka [Ha0 [Hna [Hsub [Hla Hlonga]]]]]].
    destruct (Hchar b Hb) as [b0 [kb [_ [_ [_ [Hlb Hlongb]]]]]].
    assert (He : edge B (name a) (name b)).
    { apply build_graph_edge. exists a0. split; [exact Ha0|].
      split; [now symmetry|]. now apply sublist_In with (dependents a). }
    destruct Hlonga as [[r [Hr Hw]] _]. destruct Hlongb as [_ Hmax].
    pose proof (Hmax r (S ka) Hr (walk_snoc B _ _ _ _ Hw He)). lia.
  - intros b Hb. destruct (Hchar b Hb) as [b0 [k [_ [_ [_ [Hl Hlong]]]]]].
    eauto.
Qed.

Lemma calculateLevels_longest_path_witness :
  acyclic (build_graph abc_names abc0) /\
  incl (map name abc0) abc_names /\
  exists out,
    (forall fuel,
       (length (g_adj (build_graph abc_names abc0)) < fuel)%nat ->
       calculateLevels fuel abc_names abc0 = Ok out) /\
    (forall a b, In a out -> In b out -> In (name b) (dependents a) ->
                 level a < level b) /\
    (forall b, In b out ->
       exists k, level b = 1 + Z.of_nat k /\
                 longest_from_root (build_graph abc_names abc0) (name b) k).
Proof.
  assert (Hac : acyclic (build_graph abc_names abc0))
    by (apply acyclicb_sound; vm_compute; reflexivity).
  assert (Hin : incl (map name abc0) abc_names)
    by (intros x Hx; exact Hx).
  split; [exact Hac|]. split; [exact Hin|].
  exact (calculateLevels_longest_path abc_names abc0 Hac Hin).
Defined.

(** ** Roots *)

(** C5. Whenever the computation returns, every module that no edge of
    the graph points to, with or without dependents of its own, has
    level 1 in the result; and on an acyclic graph, the records being
    those of listed modules, the computation does return. *)
Theorem roots_at_level_one names mods :
  (forall fuel out m,
     calculateLevels fuel names mods = Ok out -> In m out ->
     in_degree (build_graph names mods) (name m) = O -> level m = 1) /\
  (acyclic (build_graph names mods) -> incl (map name mods) names ->
   exists out, forall fuel,
     (length (g_adj (build_graph names mods)) < fuel)%nat ->
     calculateLevels fuel names mods = Ok out).
Proof.
  split; [|apply calculateLevels_Ok].
  intros fuel out m H Hm Hdeg.
  destruct (calculateLevels_spec _ _ _ _ H) as [G' [_ [Hpost Hlev]]].
  destruct (Forall2_In_r _ _ _ _ Hlev Hm) as [m0 [_ Hm0]].
  destruct Hm0 as [Hn [_ [_ [_ [_ Hl]]]]]. rewrite Hn in Hdeg.
  destruct (Hpost (name m0)) as [[Heq _]|[u [j [_ [Hw _]]]]].
  - rewrite Heq in Hl.
    now destruct (build_graph_levels_from names mods _ _ Hl).
  - exfalso. apply walk_last in Hw. destruct Hw as [x [_ Hx]].
    apply in_degree_zero with (u := x) in Hdeg. contradiction.
Qed.

Lemma roots_at_level_one_witness :
  calculateLevels 3 abc_names abc0 = Ok abc_out /\
  In (mkModule "A" "1.0.0" 1 true ["B"]%string) abc_out /\
  in_degree (build_graph abc_names abc0) "A" = O /\
  level (mkModule "A" "1.0.0" 1 true ["B"]%string) = 1.
Proof.
  assert (Hrun : calculateLevels 3 abc_names abc0 = Ok abc_out)
    by reflexivity.
  assert (Hin : In (mkModule "A" "1.0.0" 1 true ["B"]%string) abc_out)
    by (simpl; auto).
  assert (Hdeg : in_degree (build_graph abc_names abc0) "A" = O)
    by reflexivity.
  split; [exact Hrun|]. split; [exact Hin|]. split; [exact Hdeg|].
  exact (proj1 (roots_at_level_one abc_names abc0) 3%nat abc_out
           (mkModule "A" "1.0.0" 1 true ["B"]%string) Hrun Hin Hdeg).
Defined.

(** ** What the computation leaves alone *)

(** C9. The result has the same records in the same order as the input,
    each with the name, the version and the release flag it came with:
    the computation writes levels and dependents only. *)
Theorem calculateLevels_frame fuel names mods out :
  calculateLevels fuel names mods = Ok out ->
  map name out = map name mods /\
  map version out = map version mods /\
  map release out = map release mods.
Proof.
  intros H.
  destruct (calculateLevels_spec _ _ _ _ H) as [G' [_ [_ Hlev]]].
  clear H. induction Hlev as [|m m' t t' Hm Ht IH]; simpl.
  - repeat split.
  - destruct Hm as [Hn [Hv [Hr _]]]. destruct IH as [IH1 [IH2 IH3]].
    rewrite Hn, Hv, Hr, IH1, IH2, IH3. repeat split.
Qed.

Lemma calculateLevels_frame_witness :
  calculateLevels 3 abc_names abc0 = Ok abc_out /\
  map name abc_out = map name abc0 /\
  map version abc_out = map version abc0 /\
  map release abc_out = map release abc0.
Proof.
  assert (Hrun : calculateLevels 3 abc_names abc0 = Ok abc_out)
    by reflexivity.
  split; [exact Hrun|].
  exact (calculateLevels_frame 3 abc_names abc0 abc_out Hrun).
Defined.

(** ** Running the computation on its own result *)

(** C7. On an acyclic graph, the records being those of listed modules,
    the computation returns, and run again on the records it returned,
    whose dependents are the pruned ones, it returns again, with the
    same modules in the same order, and gives every module the level it
    had. *)
Theorem rerun_same_levels names mods :
  acyclic (build_graph names mods) ->
  incl (map name mods) names ->
  exists out1 out2,
    (forall fuel, (length (g_adj (build_graph names mods)) < fuel)%nat ->
                  calculateLevels fuel names mods = Ok out1) /\
    (forall fuel, (length (g_adj (build_graph names out1)) < fuel)%nat ->
                  calculateLevels fuel names out1 = Ok out2) /\
    map name out2 = map name out1 /\
    map level out2 = map level out1.
Proof.
  intros Hac Hnames.
  destruct (calculateLevels_Ok names mods Hac Hnames) as [out1 Hout1].
  pose proof (calculateLevels_longest _ names mods out1 Hac Hnames
                (Hout1 _ (Nat.lt_succ_diag_r _))) as HF1.
  set (B := build_graph names mods) in *.
  set (B' := build_graph names out1).
  assert (Hsub : forall u v, edge B' u v -> edge B u v).
  { intros u v He. apply build_graph_edge in He.
    destruct He as [m1 [Hm1 [Hn Hd]]].
    destruct (Forall2_In_r _ _ _ _ HF1 Hm1) as [m [Hm [Hp _]]].
    destruct Hp as [Hn' [_ [_ [_ [Hs _]]]]]. simpl in Hn', Hs.
    apply build_graph_edge. exists m. split; [exact Hm|].
    split; [congruence | now apply sublist_In with (dependents m1)]. }
  assert (Hkept : forall u v,
            edge B u v -> edge B' u v \/ exists j, walk B (S (S j)) u v).
  { intros u v He. apply build_graph_edge in He.
    destruct He as [m [Hm [Hn Hd]]].
    destruct (Forall2_In_l _ _ _ _ HF1 Hm) as [m1 [Hm1 [Hp _]]].
    destruct Hp as [Hn' [_ [_ [_ [_ Hk]]]]]. simpl in Hn', Hk.
    destruct (Hk v Hd) as [Hin|Hj].
    - left. apply build_graph_edge. exists m1. split; [exact Hm1|].
      split; [congruence | exact Hin].
    - right. now rewrite <- Hn. }
  assert (Hac' : acyclic B') by now apply acyclic_sub with B.
  assert (Hnames' : incl (map name out1) names).
  { intros x Hx. apply in_map_iff in Hx. destruct Hx as [m1 [<- Hm1]].
    destruct (Forall2_In_r _ _ _ _ HF1 Hm1) as [m [Hm [Hp _]]].
    destruct Hp as [Hn' _]. simpl in Hn'. rewrite Hn'.
    apply Hnames. now apply in_map. }
  destruct (calculateLevels_Ok names out1 Hac' Hnames') as [out2 Hout2].
  pose proof (calculateLevels_longest _ names out1 out2 Hac' Hnames'
                (Hout2 _ (Nat.lt_succ_diag_r _))) as HF2.
  fold B' in HF2.
  exists out1, out2. split; [exact Hout1|]. split; [exact Hout2|].
  assert (Heq : Forall2 (fun m1 m2 => name m2 = name m1 /\
                                      level m2 = level m1) out1 out2).
  { eapply Forall2_impl_In; [|exact HF2].
    intros m1 m2 Hm1 [Hp2 [k2 [Hl2 Hlong2]]].
    destruct (Forall2_In_r _ _ _ _ HF1 Hm1) as [m [_ [Hp [k1 [Hl1 Hlong1]]]]].
    destruct Hp as [Hn' _]. simpl in Hn'. rewrite <- Hn' in Hlong1.
    apply (longest_from_root_kept B B' Hsub Hkept _ _ Hac) in Hlong1.
    rewrite (longest_from_root_unique _ _ _ _ Hlong1 Hlong2) in Hl1.
    destruct Hp2 as [Hn2 _]. simpl in Hn2. split; congruence. }
  clear -Heq. induction Heq as [|m1 m2 t1 t2 [Hn Hl] Ht [IHn IHl]]; simpl.
  - split; reflexivity.
  - now rewrite Hn, Hl, IHn, IHl.
Qed.

Lemma rerun_same_levels_witness :
  acyclic (build_graph abc_names abc0) /\
  incl (map name abc0) abc_names /\
  exists out1 out2,
    (forall fuel,
       (length (g_adj (build_graph abc_names abc0)) < fuel)%nat ->
       calculateLevels fuel abc_names abc0 = Ok out1) /\
    (forall fuel,
       (length (g_adj (build_graph abc_names out1)) < fuel)%nat ->
       calculateLevels fuel abc_names out1 = Ok out2) /\
    map name out2 = map name out1 /\
    map level out2 = map level out1.
Proof.
  assert (Hac : acyclic (build_graph abc_names abc0))
    by (apply acyclicb_sound; vm_compute; reflexivity).
  assert (Hin : incl (map name abc0) abc_names)
    by (intros x Hx; exact Hx).
  split; [exact Hac|]. split; [exact Hin|].
  exact (rerun_same_levels abc_names abc0 Hac Hin).
Defined.

(** ** Why the pruner removes *)

Lemma fold_prune_changed source destination succs l :
  forall mods,
    fold_left (fun ms n => if in_dec string_dec n succs
                           then remove_dependent source destination ms
                           else ms) l mods <> mods ->
    exists n, In n l /\ In n succs.
Proof.
  induction l as [|x l IH]; simpl; intros mods H.
  - contradiction.
  - destruct (in_dec string_dec x succs) as [Hx|Hx].
    + exists x. auto.
    + destruct (IH mods H) as [n [Hn Hs]]. exists n. auto.
Qed.

(** C6. Whenever a call of the pruner for a source and a destination,
    given successors of the source as [calculateLevels] gives it all of
    them, changes the records, which it can only do by removing the
    destination from the source's dependents, the graph has a node other
    than source and destination that the source has an edge to and from
    which a walk of one hop or more leads to the destination. *)
Theorem pruned_through_intermediate G source destination succs mods mods' :
  incl succs (successors G source) ->
  removeModulesInIntermediatePaths G source destination succs mods
  = Ok mods' ->
  mods' <> mods ->
  exists i,
    i <> source /\ i <> destination /\ edge G source i /\
    exists j, walk G (S j) i destination.
Proof.
  intros Hsuccs H Hne. unfold removeModulesInIntermediatePaths in H.
  destruct (max_by_len (all_simple_paths G source destination)) as [p|] eqn:E;
    [|discriminate].
  injection H as <-. apply max_by_len_In in E.
  apply all_simple_paths_sound in E. destruct E as [Hc [Hnd [mid ->]]].
  rewrite interior_spec in Hne.
  apply fold_prune_changed in Hne. destruct Hne as [i [Hi Hs]].
  exists i. apply in_split in Hi. destruct Hi as [m1 [m2 ->]].
  split; [|split; [|split]].
  - intros ->. inversion Hnd as [|? ? Hnotin _]; subst. apply Hnotin.
    rewrite <- app_assoc. apply in_or_app. right. now left.
  - intros ->. inversion Hnd as [|? ? _ Hnd']; subst.
    rewrite <- app_assoc in Hnd'. apply NoDup_remove_2 in Hnd'.
    apply Hnd'. apply in_or_app. right. apply in_or_app. right. now left.
  - now apply in_successors, Hsuccs.
  - exists (length m2). apply chain_walk.
    apply chain_app_r with (source :: m1).
    simpl. rewrite <- app_assoc in Hc. exact Hc.
Qed.

Lemma pruned_through_intermediate_witness :
  incl (successors (build_graph abc_names abc0) "A")
       (successors (build_graph abc_names abc0) "A") /\
  removeModulesInIntermediatePaths (build_graph abc_names abc0) "A" "C"
    (successors (build_graph abc_names abc0) "A") abc0 = Ok abc_pruned /\
  abc_pruned <> abc0 /\
  exists i,
    i <> "A"%string /\ i <> "C"%string /\
    edge (build_graph abc_names abc0) "A" i /\
    exists j, walk (build_graph abc_names abc0) (S j) i "C".
Proof.
  split; [apply incl_refl|]. split; [reflexivity|]. split; [discriminate|].
  apply (pruned_through_intermediate (build_graph abc_names abc0)
           "A" "C" (successors (build_graph abc_names abc0) "A")
           abc0 abc_pruned).
  - apply incl_refl.
  - reflexivity.
  - discriminate.
Defined.

(** ** Pruning twice *)

(** The dependents of a record are a set kept in a Python list, and the
    pruner relies on it: on a list that held C twice, as [main] builds
    none from a module list without repetition, the pruner called for A
    and C would remove one C, and called again on the records it left
    the other. *)
Lemma pruner_twice_removes_again :
  removeModulesInIntermediatePaths (build_graph abc_names dup_mods) "A" "C"
    (successors (build_graph abc_names dup_mods) "A") dup_mods
  = Ok dup_once /\
  removeModulesInIntermediatePaths (build_graph abc_names dup_mods) "A" "C"
    (successors (build_graph abc_names dup_mods) "A") dup_once
  = Ok dup_twice /\
  dup_twice <> dup_once.
Proof.
  split; [reflexivity|]. split; [reflexivity | discriminate].
Qed.

Lemma remove_first_NoDup x l : NoDup l -> ~ In x (remove_first x l).
Proof.
  induction 1 as [|y t Hy Ht IH]; simpl; [tauto|].
  destruct (string_dec y x) as [->|Hne]; [exact Hy|].
  intros [Heq|Hin]; [contradiction | now apply IH].
Qed.

Lemma remove_dependent_idem source destination mods :
  Forall (fun m => NoDup (dependents m)) mods ->
  remove_dependent source destination
    (remove_dependent source destination mods)
  = remove_dependent source destination mods.
Proof.
  induction 1 as [|m t Hm Ht IH]; simpl; [reflexivity|].
  destruct (string_dec (name m) source) as [Hs|Hs].
  - destruct (in_dec string_dec destination (dependents m)) as [Hd|Hd]; simpl.
    + destruct (string_dec (name m) source); [|contradiction].
      destruct (in_dec string_dec destination
                  (remove_first destination (dependents m))) as [Hd'|_];
        [|reflexivity].
      exfalso. now apply (remove_first_NoDup destination (dependents m)).
    + destruct (string_dec (name m) source); [|contradiction].
      destruct (in_dec string_dec destination (dependents m));
        [contradiction | reflexivity].
  - simpl. destruct (string_dec (name m) source); [contradiction|].
    now rewrite IH.
Qed.

Lemma fold_prune_cases source destination succs l :
  forall mods,
    remove_dependent source destination
      (remove_dependent source destination mods)
    = remove_dependent source destination mods ->
    fold_left (fun ms n => if in_dec string_dec n succs
                           then remove_dependent source destination ms
                           else ms) l mods = mods \/
    fold_left (fun ms n => if in_dec string_dec n succs
                           then remove_dependent source destination ms
                           else ms) l mods
    = remove_dependent source destination mods.
Proof.
  induction l as [|n l IH]; simpl; intros mods Hid; [now left|].
  destruct (in_dec string_dec n succs) as [Hn|Hn].
  - right. destruct (IH (remove_dependent source destination mods)) as [H|H].
    + now rewrite Hid.
    + exact H.
    + now rewrite H, Hid.
  - now apply IH.
Qed.

(** C8.  Pruning is idempotent: on records whose dependents are sets, no
    record listing a dependent twice, the pruner called a second time
    for the same source, destination and successors, on the records its
    first call left, removes nothing further and leaves them as they
    are. *)
Theorem pruner_idempotent G source destination succs mods mods1 :
  Forall (fun m => NoDup (dependents m)) mods ->
  removeModulesInIntermediatePaths G source destination succs mods
  = Ok mods1 ->
  removeModulesInIntermediatePaths G source destination succs mods1
  = Ok mods1.
Proof.
  intros Hnd H. unfold removeModulesInIntermediatePaths in *.
  destruct (max_by_len (all_simple_paths G source destination)) as [p|];
    [|discriminate].
  injection H as <-. f_equal.
  pose proof (remove_dependent_idem source destination mods Hnd) as Hid.
  destruct (fold_prune_cases source destination succs (interior p) mods Hid)
    as [H|H]; rewrite H.
  - exact H.
  - destruct (fold_prune_cases source destination succs (interior p)
                (remove_dependent source destination mods)) as [H'|H'].
    + now rewrite Hid.
    + exact H'.
    + now rewrite H', Hid.
Qed.

Lemma pruner_idempotent_witness :
  Forall (fun m => NoDup (dependents m)) abc0 /\
  removeModulesInIntermediatePaths (build_graph abc_names abc0) "A" "C"
    (successors (build_graph abc_names abc0) "A") abc0 = Ok abc_pruned /\
  removeModulesInIntermediatePaths (build_graph abc_names abc0) "A" "C"
    (successors (build_graph abc_names abc0) "A") abc_pruned = Ok abc_pruned.
Proof.
  assert (Hnd : Forall (fun m => NoDup (dependents m)) abc0).
  { repeat constructor; simpl; intuition discriminate. }
  split; [exact Hnd|]. split; [reflexivity|].
  apply (pruner_idempotent (build_graph abc_names abc0) "A" "C"
           (successors (build_graph abc_names abc0) "A") abc0 abc_pruned Hnd).
  reflexivity.
Defined.

(** ** The graph does not see the pruning *)

Lemma foldM_sim {A S : Type} (R : S -> S -> Prop) (f : S -> A -> result S)
  (l : list A) :
  (forall s1 s2 a s1', R s1 s2 -> f s1 a = Ok s1' ->
                       exists s2', f s2 a = Ok s2' /\ R s1' s2') ->
  forall s1 s2 s1', R s1 s2 -> foldM f l s1 = Ok s1' ->
                    exists s2', foldM f l s2 = Ok s2' /\ R s1' s2'.
Proof.
  intros Hf. induction l as [|a t IH]; simpl; intros s1 s2 s1' HR H.
  - injection H as <-. eauto.
  - inv_bind H. destruct (Hf s1 s2 a a0 HR Ha) as [b [Hb HR']].
    rewrite Hb. simpl. now apply IH with a0.
Qed.

Lemma visit_sim node succs lv s1 s2 x s1' :
  same_graph_temp s1 s2 -> visit node succs lv s1 x = Ok s1' ->
  exists s2', visit node succs lv s2 x = Ok s2' /\ same_graph_temp s1' s2'.
Proof.
  destruct s1 as [[G mods1] temp]. destruct s2 as [[G2 mods2] temp2].
  intros [HG Ht] H. simpl in HG, Ht. subst G2 temp2.
  unfold visit in *. inv_bind H. inv_bind H. injection H as <-.
  unfold removeModulesInIntermediatePaths in *.
  destruct (max_by_len (all_simple_paths G node x)) as [p|]; [|discriminate].
  simpl. rewrite Ha0. simpl. eexists. split; [reflexivity|].
  split; reflexivity.
Qed.

Lemma process_node_sim lv s1 s2 node s1' :
  same_graph_temp s1 s2 -> process_node lv s1 node = Ok s1' ->
  exists s2', process_node lv s2 node = Ok s2' /\ same_graph_temp s1' s2'.
Proof.
  intros HR H. unfold process_node in *.
  destruct HR as [HG Ht]. rewrite <- HG.
  apply (foldM_sim same_graph_temp
           (visit node (successors (fst (fst s1)) node) lv)
           (successors (fst (fst s1)) node)
           (fun s1 s2 a s1' => visit_sim node _ lv s1 s2 a s1') s1 s2 s1');
    [split; assumption | exact H].
Qed.

Lemma while_loop_sim fuel :
  forall G mods1 mods2 F lv G' mods1',
    while_loop fuel G mods1 F lv = Ok (G', mods1') ->
    exists mods2', while_loop fuel G mods2 F lv = Ok (G', mods2').
Proof.
  induction fuel as [|fuel IH]; intros G mods1 mods2 F lv G' mods1' H.
  - destruct F; simpl in *; [|discriminate].
    injection H as <- <-. eauto.
  - destruct F as [|u0 F0]; cbn [while_loop] in *.
    + injection H as <- <-. eauto.
    + inv_bind H. destruct a as [[G1 m1] temp]. cbv zeta in H.
      unfold wave in *.
      destruct (foldM_sim same_graph_temp (process_node lv) (u0 :: F0)
                  (fun s1 s2 a s1' => process_node_sim lv s1 s2 a s1')
                  (G, mods1, []) (G, mods2, []) (G1, m1, temp))
        as [[[G2 m2] temp2] [H2 [HG Ht]]];
        [split; reflexivity | exact Ha |].
      simpl in HG, Ht. subst G2 temp2. rewrite H2. simpl.
      apply (IH G1 m1 m2 temp (lv + 1) G' mods1' H).
Qed.

(** C10. The loop, pruner included, leaves the edges and the nodes of the
    graph as they were built: the graph it ends with differs from the
    one it started on in node levels only.  And those levels do not
    depend on the records the pruner works on: started on the same
    graph with any other records, the loop ends with the same graph. *)
Theorem pruning_leaves_graph fuel G mods F lv G' mods' :
  while_loop fuel G mods F lv = Ok (G', mods') ->
  g_adj G' = g_adj G /\ nodes G' = nodes G /\
  forall mods2, exists mods2', while_loop fuel G mods2 F lv = Ok (G', mods2').
Proof.
  intros H.
  destruct (while_loop_spec G mods fuel G mods F lv G' mods'
              (same_shape_refl G) (pruned_from_refl G mods) H)
    as [[Ha Hn] _].
  split; [exact Ha|]. split; [exact Hn|].
  intros mods2. apply (while_loop_sim fuel G mods mods2 F lv G' mods' H).
Qed.

Lemma pruning_leaves_graph_witness :
  while_loop 3 (build_graph abc_names abc0) abc0
    (initial_list (build_graph abc_names abc0)) 2
  = Ok (abc_graph_final, abc_pruned) /\
  g_adj abc_graph_final = g_adj (build_graph abc_names abc0) /\
  nodes abc_graph_final = nodes (build_graph abc_names abc0) /\
  forall mods2, exists mods2',
    while_loop 3 (build_graph abc_names abc0) mods2
      (initial_list (build_graph abc_names abc0)) 2
    = Ok (abc_graph_final, mods2').
Proof.
  split; [reflexivity|].
  apply (pruning_leaves_graph 3 (build_graph abc_names abc0) abc0
           (initial_list (build_graph abc_names abc0)) 2
           abc_graph_final abc_pruned).
  reflexivity.
Defined.

(** * Properties of the rest of the script *)

(** ** Text *)

Lemma prefix_append s t : prefix s (s ++ t) = true.
Proof.
  induction s as [|a s IH]; simpl.
  - now destruct t.
  - destruct (ascii_dec a a); [exact IH | contradiction].
Qed.

Lemma prefix_split p s :
  prefix p s = true -> exists r, s = (p ++ r)%string.
Proof.
  revert s. induction p as [|a p IH]; intros s H.
  - exists s. reflexivity.
  - destruct s as [|b s]; simpl in H; [discriminate|].
    destruct (ascii_dec a b) as [->|]; [|discriminate].
    destruct (IH s H) as [r ->]. exists r. reflexivity.
Qed.

Lemma contains_here n t : contains n (n ++ t) = true.
Proof.
  destruct n as [|a n]; simpl.
  - now destruct t.
  - destruct (ascii_dec a a); [|contradiction].
    now rewrite prefix_append.
Qed.

Lemma contains_append_r n p s :
  contains n s = true -> contains n (p ++ s) = true.
Proof.
  intros H. induction p as [|a p IH]; simpl; [exact H|].
  rewrite IH. apply orb_true_r.
Qed.

Lemma append_assoc (a b c : string) : ((a ++ b) ++ c = a ++ b ++ c)%string.
Proof. induction a as [|x a IH]; simpl; [reflexivity | now rewrite IH]. Qed.

Lemma append_nil_r (a : string) : (a ++ "" = a)%string.
Proof. induction a as [|x a IH]; simpl; [reflexivity | now rewrite IH]. Qed.

Lemma has_char_append c a b :
  has_char c (a ++ b) = has_char c a || has_char c b.
Proof.
  induction a as [|x a IH]; simpl; [reflexivity|].
  destruct (ascii_dec x c); [reflexivity | exact IH].
Qed.

Lemma after_last_none sep s acc :
  has_char sep s = false -> after_last sep s acc = acc.
Proof.
  revert acc. induction s as [|a s IH]; simpl; intros acc H; [reflexivity|].
  destruct (ascii_dec a sep); [discriminate | now apply IH].
Qed.

Lemma after_last_app sep p t acc :
  has_char sep t = false -> after_last sep (p ++ String sep t) acc = t.
Proof.
  intros H. revert acc. induction p as [|a p IH]; simpl; intros acc.
  - destruct (ascii_dec sep sep); [|contradiction].
    now apply after_last_none.
  - destruct (ascii_dec a sep); apply IH.
Qed.

(** What follows the last separator holds no separator. *)
Lemma split_last_clean sep s : has_char sep (split_last sep s) = false.
Proof.
  unfold split_last.
  assert (H : forall s acc,
             has_char sep s = true \/ has_char sep acc = false ->
             has_char sep (after_last sep s acc) = false).
  { clear s. induction s as [|a s IH]; simpl; intros acc Hacc.
    - destruct Hacc; [discriminate | assumption].
    - destruct (ascii_dec a sep).
      + apply IH. destruct (has_char sep s); auto.
      + apply IH. exact Hacc. }
  apply H. destruct (has_char sep s); auto.
Qed.

Lemma split_last_app sep p t :
  has_char sep t = false -> split_last sep (p ++ String sep t) = t.
Proof. intros H. unfold split_last. now apply after_last_app. Qed.

Lemma split_last_none sep s : has_char sep s = false -> split_last sep s = s.
Proof. intros H. unfold split_last. now apply after_last_none. Qed.

Lemma chars_append a b : chars (a ++ b) = (chars a + chars b)%nat.
Proof.
  induction a as [|x a IH]; cbn [append chars]; [reflexivity|].
  destruct (continuation x); rewrite IH; reflexivity.
Qed.

(** A text starts with the first byte of a character. *)
Lemma utf8_lead a t : utf8 (String a t) = true -> continuation a = false.
Proof.
  unfold continuation. cbn [utf8].
  destruct (between 0 127 a) eqn:E1.
  - intros _. unfold between in *.
    apply andb_true_iff in E1. destruct E1 as [_ E1]. apply N.leb_le in E1.
    apply andb_false_iff. left. apply N.leb_gt. lia.
  - destruct t as [|b s2]; [discriminate|].
    assert (Hhigh : forall lo hi, (192 <= lo)%N -> between lo hi a = true ->
                                  between 128 191 a = false).
    { intros lo hi Hlo H. unfold between in *.
      apply andb_true_iff in H. destruct H as [H _]. apply N.leb_le in H.
      apply andb_false_iff. right. apply N.leb_gt. lia. }
    destruct (between 194 223 a) eqn:E2.
    + intros _. apply (Hhigh 194%N 223%N); [lia | exact E2].
    + destruct s2 as [|c s3]; [discriminate|].
      destruct (second_of_three a b) eqn:E3.
      * intros _. unfold second_of_three in E3.
        repeat (apply orb_true_iff in E3; destruct E3 as [E3|E3]);
          apply andb_true_iff in E3; destruct E3 as [E3 _];
          eapply Hhigh; try exact E3; lia.
      * destruct s3 as [|d s4]; [discriminate|].
        intros H. repeat (apply andb_true_iff in H; destruct H as [H _]).
        unfold second_of_four in H.
        repeat (apply orb_true_iff in H; destruct H as [H|H]);
          apply andb_true_iff in H; destruct H as [H _];
          eapply Hhigh; try exact H; lia.
Qed.

(** The characters of [a] are what is read of [a] followed by a text. *)
Lemma take_chars_append a b :
  utf8 b = true -> take_chars (chars a) (a ++ b) = a.
Proof.
  intros Hb. induction a as [|x a IH]; cbn [append chars take_chars].
  - destruct b as [|c t]; [reflexivity|].
    cbn [take_chars]. now rewrite (utf8_lead c t Hb).
  - destruct (continuation x); now rewrite IH.
Qed.

Lemma drop_last_append a b :
  utf8 b = true -> drop_last (chars b) (a ++ b) = a.
Proof.
  intros Hb. unfold drop_last. rewrite chars_append.
  replace (chars a + chars b - chars b)%nat with (chars a) by lia.
  now apply take_chars_append.
Qed.

(** ** Dependencies read from [build.gradle] *)

Section FetchFacts.

Variable build_gradle : string -> list string.
Variable gradle_properties : string -> list string.

(** The loop of [getDependencies] on some lines, started with some
    dependencies. *)
Lemma getDependencies_loop balModule lines acc :
  fold_left
    (fun dependencies processedLine =>
       if contains "ballerina-platform/module" processedLine then
         let module := split_last "/" processedLine in
         if string_dec (drop_last 2 module) balModule then dependencies
         else dependencies ++ [drop_last 2 module]
       else dependencies) lines acc
  = acc ++
    flat_map
      (fun line =>
         if contains "ballerina-platform/module" line then
           if string_dec (drop_last 2 (split_last "/" line)) balModule
           then [] else [drop_last 2 (split_last "/" line)]
         else []) lines.
Proof.
  revert acc. induction lines as [|l t IH]; simpl; intros acc.
  - now rewrite app_nil_r.
  - rewrite IH. destruct (contains "ballerina-platform/module" l);
      [|reflexivity].
    cbv zeta. destruct (string_dec _ balModule); [reflexivity|].
    now rewrite <- app_assoc.
Qed.

Lemma render_line_parse l :
  well_formed_line l ->
  (if contains "ballerina-platform/module" (render_line l) then
     [drop_last 2 (split_last "/" (render_line l))]
   else [])
  = match l with Repo _ d _ => [d] | Other _ => [] end.
Proof.
  destruct l as [pre d suf|line]; cbn [render_line well_formed_line].
  - intros [_ [_ [Hu [Hp [Hd [Hlen Hsuf]]]]]].
    assert (Hc : contains "ballerina-platform/module"
                   (pre ++ "ballerina-platform/" ++ d ++ suf) = true).
    { apply contains_append_r.
      destruct (prefix_split _ _ Hp) as [r ->].
      replace ("ballerina-platform/" ++ ("module" ++ r) ++ suf)%string
        with ("ballerina-platform/module" ++ (r ++ suf))%string
        by reflexivity.
      apply contains_here. }
    rewrite Hc.
    replace (pre ++ "ballerina-platform/" ++ d ++ suf)%string
      with ((pre ++ "ballerina-platform") ++ String "/" (d ++ suf))%string
      by (now rewrite append_assoc).
    rewrite split_last_app.
    + rewrite <- Hlen. now rewrite drop_last_append.
    + rewrite has_char_append, Hd, Hsuf. reflexivity.
  - intros [_ ->]. reflexivity.
Qed.

(** X1. [getDependencies] never lists the module itself among its
    dependencies, whatever its [build.gradle] says. *)
Theorem getDependencies_not_self balModule :
  Forall (fun d => d <> balModule) (getDependencies build_gradle balModule).
Proof.
  unfold getDependencies. rewrite getDependencies_loop. simpl.
  apply Forall_forall. intros d H.
  apply in_flat_map in H. destruct H as [line [_ H]].
  destruct (contains "ballerina-platform/module" line); [|destruct H].
  destruct (string_dec (drop_last 2 (split_last "/" line)) balModule)
    as [He|Hne]; [destruct H|].
  destruct H as [<-|[]]. exact Hne.
Qed.

(** X2. When every line of a module's [build.gradle] is a text that
    either names the repository of a module of the organisation, a name
    that starts with [module] and has no slash, followed by two
    characters other than a slash, or does not hold
    [ballerina-platform/module] at all, then [getDependencies] returns
    the modules named, in the order of the lines, the module itself left
    out.  The two characters may be of more than one byte each. *)
Theorem getDependencies_repos balModule ls :
  build_gradle balModule = map render_line ls ->
  Forall well_formed_line ls ->
  getDependencies build_gradle balModule
  = filter (fun d => if string_dec d balModule then false else true)
           (repos ls).
Proof.
  intros Hlines Hwf. unfold getDependencies.
  rewrite getDependencies_loop, Hlines. simpl. clear Hlines.
  induction Hwf as [|l t Hl Ht IH]; [reflexivity|].
  cbn [map flat_map repos]. fold (repos t). rewrite filter_app, IH.
  f_equal. clear IH. pose proof (render_line_parse l Hl) as Hp.
  destruct (contains "ballerina-platform/module" (render_line l)).
  - destruct l as [pre d suf|line]; [|discriminate].
    assert (Hd : drop_last 2 (split_last "/" (render_line (Repo pre d suf)))
                 = d) by congruence.
    rewrite Hd. cbn [filter].
    destruct (string_dec d balModule); reflexivity.
  - destruct l as [pre d suf|line]; [discriminate | reflexivity].
Qed.

(** ** The version read from [gradle.properties] *)

Lemma getVersion_loop_none lines acc :
  (forall line, In line lines -> prefix "version=" line = false) ->
  fold_left
    (fun version processedLine =>
       if prefix "version=" processedLine
       then drop_last 1 (split_last "=" processedLine)
       else version) lines acc = acc.
Proof.
  revert acc. induction lines as [|l t IH]; simpl; intros acc H;
    [reflexivity|].
  rewrite (H l (or_introl eq_refl)). apply IH.
  intros line Hin. apply H. now right.
Qed.


(** X4. The version is read from the last line that starts with
    [version=]: when the lines are texts and what follows [version=]
    there holds no further equals sign, the version is that text
    without its last character, the line feed of a line that has one.
    So for [v] followed by one character [c], of however many bytes,
    the version is [v], and it is empty when nothing follows
    [version=]. *)
Theorem getVersion_last_line balModule l1 w l2 :
  Forall (fun line => utf8 line = true) (gradle_properties balModule) ->
  gradle_properties balModule = l1 ++ ("version=" ++ w)%string :: l2 ->
  has_char "=" w = false ->
  (forall line, In line l2 -> prefix "version=" line = false) ->
  getVersion gradle_properties balModule = drop_last 1 w /\
  (w = EmptyString ->
   getVersion gradle_properties balModule = EmptyString) /\
  forall v c, w = (v ++ c)%string -> utf8 c = true -> chars c = 1%nat ->
              getVersion gradle_properties balModule = v.
Proof.
  intros _ Hlines Hw Hl2.
  assert (H : getVersion gradle_properties balModule = drop_last 1 w).
  { unfold getVersion. rewrite Hlines.
    rewrite fold_left_app. cbn [fold_left].
    rewrite getVersion_loop_none by exact Hl2.
    replace (prefix "version=" ("version=" ++ w)) with true
      by (symmetry; apply prefix_append).
    replace ("version=" ++ w)%string with ("version" ++ String "=" w)%string
      by reflexivity.
    now rewrite split_last_app. }
  split; [exact H|]. split.
  - intros ->. exact H.
  - intros v c -> Hc Hone. rewrite H, <- Hone. now apply drop_last_append.
Qed.

End FetchFacts.

(** ** Sorting *)

Section SortFacts.

Context {A K : Type}.
Variable key : A -> K.
Variable leb : K -> K -> bool.
Hypothesis leb_total : forall a b, leb a b = true \/ leb b a = true.

Lemma insert_by_perm x l : Permutation (insert_by key leb x l) (x :: l).
Proof.
  induction l as [|y t IH]; simpl; [apply Permutation_refl|].
  destruct (leb (key x) (key y)); [apply Permutation_refl|].
  apply perm_trans with (y :: x :: t); [now apply perm_skip | apply perm_swap].
Qed.

Lemma sort_by_perm l : Permutation (sort_by key leb l) l.
Proof.
  induction l as [|x t IH]; simpl; [apply perm_nil|].
  apply perm_trans with (x :: sort_by key leb t);
    [apply insert_by_perm | now apply perm_skip].
Qed.

Lemma insert_by_sorted x l :
  Sorted (fun a b => leb (key a) (key b) = true) l ->
  Sorted (fun a b => leb (key a) (key b) = true) (insert_by key leb x l).
Proof.
  induction 1 as [|y t Ht IH Hy]; simpl.
  - repeat constructor.
  - destruct (leb (key x) (key y)) eqn:E.
    + constructor; [now constructor | now constructor].
    + constructor; [exact IH|].
      destruct t as [|z t]; simpl.
      * constructor. destruct (leb_total (key x) (key y)); congruence.
      * destruct (leb (key x) (key z)).
        -- constructor. destruct (leb_total (key x) (key y)); congruence.
        -- inversion Hy; subst. now constructor.
Qed.

Lemma sort_by_sorted l :
  Sorted (fun a b => leb (key a) (key b) = true) (sort_by key leb l).
Proof.
  induction l as [|x t IH]; simpl; [constructor | now apply insert_by_sorted].
Qed.

Lemma sort_by_sorted_id l :
  Sorted (fun a b => leb (key a) (key b) = true) l -> sort_by key leb l = l.
Proof.
  induction 1 as [|x t Ht IH Hx]; simpl; [reflexivity|].
  rewrite IH. destruct Hx as [|y t Hxy]; simpl; [reflexivity|].
  now rewrite Hxy.
Qed.

Lemma insert_by_stable (sel : A -> bool) x l :
  (forall a b, sel a = true -> sel b = true -> leb (key a) (key b) = true) ->
  filter sel (insert_by key leb x l) = filter sel (x :: l).
Proof.
  intros Hsel. induction l as [|y t IH]; [reflexivity|].
  cbn [insert_by]. destruct (leb (key x) (key y)) eqn:E; [reflexivity|].
  cbn [filter] in *. rewrite IH.
  destruct (sel x) eqn:Ex, (sel y) eqn:Ey; try reflexivity.
  rewrite (Hsel x y Ex Ey) in E. discriminate.
Qed.

Lemma sort_by_stable (sel : A -> bool) l :
  (forall a b, sel a = true -> sel b = true -> leb (key a) (key b) = true) ->
  filter sel (sort_by key leb l) = filter sel l.
Proof.
  intros Hsel. induction l as [|x t IH]; [reflexivity|].
  cbn [sort_by fold_right]. fold (sort_by key leb t).
  rewrite insert_by_stable by exact Hsel.
  cbn [filter]. now rewrite IH.
Qed.

End SortFacts.

Lemma string_leb_trans a b c :
  String.leb a b = true -> String.leb b c = true -> String.leb a c = true.
Proof.
  unfold String.leb. intros Hab Hbc.
  destruct (String.compare a b) eqn:Eab; try discriminate;
  destruct (String.compare b c) eqn:Ebc; try discriminate.
  - apply String_as_OT.cmp_eq in Eab, Ebc. subst.
    assert (Hcc : String.compare c c = Eq)
      by (apply (proj2 (String_as_OT.cmp_eq c c)); reflexivity).
    now rewrite Hcc.
  - apply String_as_OT.cmp_eq in Eab. subst. now rewrite Ebc.
  - apply String_as_OT.cmp_eq in Ebc. subst. now rewrite Eab.
  - apply String_as_OT.cmp_lt in Eab, Ebc.
    pose proof (String_as_OT.lt_trans _ _ _ Eab Ebc) as H.
    apply String_as_OT.cmp_lt in H. unfold String_as_OT.cmp in H.
    now rewrite H.
Qed.

(** X5. [sortModuleNameList] returns the names it was given, each as
    often as it was given, ordered by what follows their last hyphen:
    of any two names of the result, the earlier one has the smaller or
    the same ending; and names with the same ending are in the order
    they were given in. *)
Theorem sortModuleNameList_sorted nameList :
  Permutation (sortModuleNameList nameList) nameList /\
  StronglySorted
    (fun a b => String.leb (split_last "-" a) (split_last "-" b) = true)
    (sortModuleNameList nameList) /\
  forall ending,
    filter (fun n => String.eqb (split_last "-" n) ending)
           (sortModuleNameList nameList)
    = filter (fun n => String.eqb (split_last "-" n) ending) nameList.
Proof.
  unfold sortModuleNameList. split; [apply sort_by_perm|]. split.
  - apply Sorted_StronglySorted.
    + intros a b c. apply string_leb_trans.
    + apply sort_by_sorted. apply String.leb_total.
  - intros ending. apply sort_by_stable. intros a b Ha Hb.
    apply String.eqb_eq in Ha, Hb. rewrite Ha, Hb.
    destruct (String.leb_total ending ending); assumption.
Qed.

(** X6. Sorting the names a second time changes nothing: the list
    [sortModuleNameList] writes back is one it returns as it is. *)
Theorem sortModuleNameList_idempotent nameList :
  sortModuleNameList (sortModuleNameList nameList)
  = sortModuleNameList nameList.
Proof.
  unfold sortModuleNameList. apply sort_by_sorted_id.
  apply sort_by_sorted. apply String.leb_total.
Qed.

(** ** Immediate dependents *)

Lemma extended_refl names l : Forall2 (extended names) l l.
Proof.
  induction l as [|m t IH]; constructor; auto.
  unfold extended. repeat split. exists []. split.
  - now rewrite app_nil_r.
  - intros x [].
Qed.

Lemma extended_trans names l1 l2 l3 :
  Forall2 (extended names) l1 l2 -> Forall2 (extended names) l2 l3 ->
  Forall2 (extended names) l1 l3.
Proof.
  intros H12. revert l3. induction H12 as [|a b l1 l2 Hab H IH]; intros l3 H23.
  - inversion H23; subst. constructor.
  - inversion H23 as [|? c ? l3' Hbc H']; subst. constructor; [|now apply IH].
    destruct Hab as [Hn [Hv [Hl [Hr [x [Hx Hix]]]]]].
    destruct Hbc as [Hn' [Hv' [Hl' [Hr' [y [Hy Hiy]]]]]].
    unfold extended. repeat split; try congruence.
    exists (x ++ y). split.
    + rewrite Hy, Hx. now rewrite app_assoc.
    + now apply incl_app.
Qed.

Lemma append_dependent_extended names i n l :
  In n names -> Forall2 (extended names) l (append_dependent i n l).
Proof.
  intros Hn. revert i. induction l as [|m t IH]; intros i.
  - destruct i; constructor.
  - destruct i as [|i]; simpl.
    + constructor; [|apply extended_refl].
      unfold extended. simpl. repeat split. exists [n]. split; [reflexivity|].
      intros x [<-|[]]. exact Hn.
    + constructor; [|apply IH].
      unfold extended. repeat split. exists []. split.
      * now rewrite app_nil_r.
      * intros x [].
Qed.

Lemma mark_dependent_extended names n d mods k :
  In n names -> Forall2 (extended names) mods (mark_dependent n d mods k).
Proof.
  intros Hn. unfold mark_dependent.
  destruct (nth_error mods k) as [m|]; [|apply extended_refl].
  destruct (in_dec string_dec (name m) d); [|apply extended_refl].
  destruct (index_of m mods); [|apply extended_refl].
  now apply append_dependent_extended.
Qed.

(** X7. [getImmediateDependents] keeps the records, their order, and
    the name, version, level and release flag of each; to the
    dependents of a record it only adds, at the end, names of the
    module list. *)
Theorem getImmediateDependents_extends getDependencies names mods :
  Forall2 (extended names) mods
          (getImmediateDependents getDependencies names mods).
Proof.
  unfold getImmediateDependents.
  assert (H : forall ns ms, incl ns names -> Forall2 (extended names) mods ms ->
            Forall2 (extended names) mods
              (fold_left
                 (fun mods moduleName =>
                    fold_left
                      (mark_dependent moduleName (getDependencies moduleName))
                      (seq 0 (length mods)) mods) ns ms)).
  { induction ns as [|n t IH]; simpl; intros ms Hi Hms; [exact Hms|].
    apply IH; [intros x Hx; apply Hi; now right|].
    assert (Hn : In n names) by (apply Hi; now left).
    generalize (seq 0 (length ms)). intros ks. revert ms Hms.
    induction ks as [|k ks IHk]; simpl; intros ms Hms; [exact Hms|].
    apply IHk. apply extended_trans with ms; [exact Hms|].
    now apply mark_dependent_extended. }
  apply H; [apply incl_refl | apply extended_refl].
Qed.

Lemma index_of_found m mods k :
  nth_error mods k = Some m -> index_of m mods <> None.
Proof.
  revert k. induction mods as [|x t IH]; intros k H.
  - destruct k; discriminate.
  - simpl. destruct (module_eq_dec x m); [discriminate|].
    destruct k as [|k]; simpl in H; [congruence|].
    specialize (IH k H). destruct (index_of m t); [discriminate|].
    contradiction.
Qed.

Lemma index_of_here m pre post :
  ~ In (name m) (map name pre) ->
  index_of m (pre ++ m :: post) = Some (length pre).
Proof.
  induction pre as [|x pre IH]; simpl; intros H.
  - destruct (module_eq_dec m m); [reflexivity | contradiction].
  - destruct (module_eq_dec x m) as [->|_].
    + exfalso. apply H. now left.
    + rewrite IH; [reflexivity|]. intros Hin. apply H. now right.
Qed.

Lemma append_dependent_here n m pre post :
  append_dependent (length pre) n (pre ++ m :: post)
  = pre ++ with_dependents m (dependents m ++ [n]) :: post.
Proof. induction pre as [|x pre IH]; simpl; [reflexivity | now rewrite IH]. Qed.

Lemma mark_all_distinct n d pre post :
  NoDup (map name (pre ++ post)) ->
  fold_left (mark_dependent n d) (seq (length pre) (length post))
            (pre ++ post)
  = pre ++
    map (fun m => if in_dec string_dec (name m) d
                  then with_dependents m (dependents m ++ [n]) else m)
        post.
Proof.
  revert pre. induction post as [|m post IH]; intros pre Hnd; simpl.
  - reflexivity.
  - assert (Hpre : ~ In (name m) (map name pre)).
    { rewrite map_app in Hnd. simpl in Hnd.
      apply NoDup_remove_2 in Hnd. intros Hin. apply Hnd.
      apply in_or_app. now left. }
    assert (Hstep : mark_dependent n d (pre ++ m :: post) (length pre)
              = pre ++ (if in_dec string_dec (name m) d
                        then with_dependents m (dependents m ++ [n])
                        else m) :: post).
    { unfold mark_dependent.
      rewrite nth_error_app2, Nat.sub_diag by lia. simpl.
      destruct (in_dec string_dec (name m) d); [|reflexivity].
      rewrite index_of_here by exact Hpre. apply append_dependent_here. }
    rewrite Hstep. clear Hstep.
    set (m' := if in_dec string_dec (name m) d
               then with_dependents m (dependents m ++ [n]) else m).
    assert (Hname : name m' = name m)
      by (unfold m'; destruct (in_dec string_dec (name m) d); reflexivity).
    replace (pre ++ m' :: post) with ((pre ++ [m']) ++ post)
      by (now rewrite <- app_assoc).
    replace (S (length pre)) with (length (pre ++ [m']))
      by (rewrite length_app; simpl; lia).
    rewrite IH.
    + now rewrite <- app_assoc.
    + rewrite <- app_assoc. simpl. rewrite map_app in *. simpl in *.
      now rewrite Hname.
Qed.

Lemma with_dependents_same m : with_dependents m (dependents m) = m.
Proof. now destruct m. Qed.

Lemma getImmediateDependents_distinct getDependencies names mods :
  NoDup (map name mods) ->
  getImmediateDependents getDependencies names mods
  = map (fun m =>
           with_dependents m
             (dependents m ++
              filter (depends_on getDependencies (name m)) names))
        mods.
Proof.
  unfold getImmediateDependents. revert mods.
  induction names as [|n t IH]; simpl; intros mods Hnd.
  - symmetry. rewrite <- (map_id mods) at 2. apply map_ext.
    intros m. rewrite app_nil_r. apply with_dependents_same.
  - pose proof (mark_all_distinct n (getDependencies n) [] mods Hnd) as Hm.
    simpl in Hm. rewrite Hm. rewrite IH.
    + rewrite map_map. apply map_ext. intros m. unfold depends_on at 2.
      destruct (in_dec string_dec (name m) (getDependencies n)); simpl.
      * unfold with_dependents. simpl. now rewrite <- app_assoc.
      * reflexivity.
    + rewrite map_map.
      replace (map _ mods) with (map name mods); [exact Hnd|].
      apply map_ext. intros m.
      destruct (in_dec string_dec (name m) (getDependencies n)); reflexivity.
Qed.

(** X8. On the records [initializeModuleDetails] makes from a module
    list without repetitions, [getImmediateDependents] gives every
    module as dependents exactly the modules of the list that have it
    among their dependencies, in the order of the list. *)
Theorem getImmediateDependents_initial getVersion getDependencies names :
  NoDup names ->
  getImmediateDependents getDependencies names
    (initializeModuleDetails getVersion names)
  = map (fun m => mkModule m (getVersion m) 0 true
                    (filter (depends_on getDependencies m) names))
        names.
Proof.
  intros Hnd. rewrite getImmediateDependents_distinct.
  - unfold initializeModuleDetails. rewrite map_map. reflexivity.
  - now rewrite initializeModuleDetails_names.
Qed.

(** ** The graph [main] builds *)

Lemma add_node_nodes G n l x :
  In x (nodes (add_node G n l)) -> In x (nodes G) \/ x = n.
Proof.
  unfold add_node, nodes.
  destruct (set_attr n l (g_node G)) as [ns|] eqn:E; simpl.
  - apply set_attr_Some in E. destruct E as [-> _]. auto.
  - rewrite map_app, in_app_iff. simpl. intuition.
Qed.

Lemma touch_node_nodes G n x :
  In x (nodes (touch_node G n)) -> In x (nodes G) \/ x = n.
Proof.
  unfold touch_node. destruct (in_dec string_dec n (nodes G)); [auto|].
  unfold nodes. simpl. rewrite map_app, in_app_iff. simpl. intuition.
Qed.

Lemma add_edge_nodes_in G u v x :
  In x (nodes (add_edge G u v)) -> In x (nodes G) \/ x = u \/ x = v.
Proof.
  unfold nodes at 1. rewrite add_edge_nodes. intros H.
  apply touch_node_nodes in H. destruct H as [H|H]; [|auto].
  apply touch_node_nodes in H. tauto.
Qed.

Lemma build_graph_nodes names mods x :
  In x (nodes (build_graph names mods)) ->
  In x names \/ exists m, In m mods /\ (x = name m \/ In x (dependents m)).
Proof.
  unfold build_graph.
  assert (H0 : forall ns G, In x (nodes (add_nodes ns G)) ->
             In x (nodes G) \/ In x ns).
  { unfold add_nodes. induction ns as [|n t IH]; simpl; intros G H; [auto|].
    apply IH in H. destruct H as [H|H]; [|auto].
    apply add_node_nodes in H. intuition. }
  assert (H1 : forall m G, In x (nodes (add_edges_of G m)) ->
             In x (nodes G) \/ x = name m \/ In x (dependents m)).
  { intros m. unfold add_edges_of. generalize (name m). intros u.
    induction (dependents m) as [|d ds IH]; simpl; intros G H; [auto|].
    apply IH in H. destruct H as [H|[H|H]]; auto.
    apply add_edge_nodes_in in H. intuition. }
  assert (H2 : forall ms G, In x (nodes (fold_left add_edges_of ms G)) ->
             In x (nodes G) \/
             exists m, In m ms /\ (x = name m \/ In x (dependents m))).
  { induction ms as [|m t IH]; simpl; intros G H; [auto|].
    apply IH in H. destruct H as [H|[m' [Hm' H]]].
    - apply H1 in H. destruct H as [H|H]; [auto|].
      right. exists m. auto.
    - right. exists m'. auto. }
  intros H. apply H2 in H. destruct H as [H|H]; [|auto].
  apply H0 in H. destruct H as [[]|H]. auto.
Qed.

Section MainFacts.

Variable build_gradle : string -> list string.
Variable gradle_properties : string -> list string.

Lemma getDependencies_In balModule d :
  In d (getDependencies build_gradle balModule) ->
  d <> balModule /\
  exists line, In line (build_gradle balModule) /\
    contains "ballerina-platform/module" line = true /\
    d = drop_last 2 (split_last "/" line).
Proof.
  unfold getDependencies. rewrite getDependencies_loop. simpl.
  intros H. apply in_flat_map in H. destruct H as [line [Hl H]].
  destruct (contains "ballerina-platform/module" line) eqn:E; [|destruct H].
  destruct (string_dec (drop_last 2 (split_last "/" line)) balModule)
    as [He|Hne]; [destruct H|].
  destruct H as [<-|[]]. split; [exact Hne|]. exists line. auto.
Qed.

Lemma sortModuleNameList_perm l : Permutation (sortModuleNameList l) l.
Proof. apply sort_by_perm. Qed.

(** The records of [main], for a module list without repetitions. *)
Lemma main_records_distinct module_list :
  NoDup module_list ->
  main_records build_gradle gradle_properties module_list
  = map (fun m =>
           mkModule m (getVersion gradle_properties m) 0 true
             (filter (depends_on (getDependencies build_gradle) m)
                     (sortModuleNameList module_list)))
        (sortModuleNameList module_list).
Proof.
  intros Hnd. unfold main_records.
  rewrite getImmediateDependents_distinct.
  - unfold initializeModuleDetails. rewrite map_map. reflexivity.
  - rewrite initializeModuleDetails_names.
    apply Permutation_NoDup with module_list; [|exact Hnd].
    apply Permutation_sym, sortModuleNameList_perm.
Qed.

Lemma main_records_names module_list :
  NoDup module_list ->
  map name (main_records build_gradle gradle_properties module_list)
  = sortModuleNameList module_list.
Proof.
  intros Hnd. rewrite main_records_distinct by exact Hnd.
  rewrite map_map. simpl. apply map_id.
Qed.

Lemma main_graph_edge module_list u v :
  NoDup module_list ->
  edge (main_graph build_gradle gradle_properties module_list) u v <->
  In u module_list /\ In v module_list /\
  In u (getDependencies build_gradle v).
Proof.
  intros Hnd. unfold main_graph. rewrite build_graph_edge.
  rewrite main_records_distinct by exact Hnd. unfold declared.
  pose proof (sortModuleNameList_perm module_list) as Hp.
  split.
  - intros [m [Hm [Hn Hd]]]. apply in_map_iff in Hm.
    destruct Hm as [x [<- Hx]]. simpl in Hn, Hd. subst x.
    apply filter_In in Hd. destruct Hd as [Hv Hd]. unfold depends_on in Hd.
    destruct (in_dec string_dec u (getDependencies build_gradle v));
      [|discriminate].
    split; [now apply (Permutation_in _ Hp)|].
    split; [now apply (Permutation_in _ Hp) | assumption].
  - intros [Hu [Hv Hd]]. apply Permutation_sym in Hp.
    eexists. split; [apply in_map_iff; exists u; split;
                     [reflexivity | now apply (Permutation_in _ Hp)]|].
    simpl. split; [reflexivity|]. apply filter_In.
    split; [now apply (Permutation_in _ Hp)|]. unfold depends_on.
    destruct (in_dec string_dec u (getDependencies build_gradle v));
      [reflexivity | contradiction].
Qed.

(** X9. For a module list without repetitions, the graph [main] has the
    levels computed on has an edge from a module to another exactly
    when both are listed and the first is among the dependencies read
    for the second; no module has an edge to itself; and its nodes are
    the listed modules, each at level 1 when the propagation starts. *)
Theorem main_graph_spec module_list :
  NoDup module_list ->
  (forall u v,
     edge (main_graph build_gradle gradle_properties module_list) u v <->
     In u module_list /\ In v module_list /\
     In u (getDependencies build_gradle v)) /\
  (forall u,
     ~ edge (main_graph build_gradle gradle_properties module_list) u u) /\
  (forall n,
     In n (nodes (main_graph build_gradle gradle_properties module_list)) <->
     In n module_list) /\
  (forall n,
     In n module_list ->
     lookup n (g_node (main_graph build_gradle gradle_properties module_list))
     = Some (Some 1)).
Proof.
  intros Hnd.
  pose proof (sortModuleNameList_perm module_list) as Hp.
  assert (Hlevel : forall n, In n module_list ->
            lookup n (g_node (main_graph build_gradle gradle_properties
                                module_list)) = Some (Some 1)).
  { intros n Hn. unfold main_graph. apply build_graph_level.
    apply Permutation_sym in Hp. now apply (Permutation_in _ Hp). }
  split; [intros u v; now apply main_graph_edge|].
  split; [|split; [|exact Hlevel]].
  - intros u He. apply main_graph_edge in He; [|exact Hnd].
    destruct He as [_ [_ He]]. apply getDependencies_In in He.
    destruct He as [He _]. now apply He.
  - intros n. split.
    + intros Hn. unfold main_graph in Hn. apply build_graph_nodes in Hn.
      destruct Hn as [Hn|[m [Hm Hn]]];
        [now apply (Permutation_in _ Hp)|].
      rewrite main_records_distinct in Hm by exact Hnd.
      apply in_map_iff in Hm. destruct Hm as [x [<- Hx]]. simpl in Hn.
      destruct Hn as [->|Hn]; [now apply (Permutation_in _ Hp)|].
      apply filter_In in Hn. destruct Hn as [Hn _].
      now apply (Permutation_in _ Hp).
    + intros Hn. apply Hlevel in Hn.
      destruct (in_dec string_dec n
                  (nodes (main_graph build_gradle gradle_properties
                            module_list))) as [Hin|Hout]; [exact Hin|].
      apply lookup_None in Hout. congruence.
Qed.

Lemma StronglySorted_app_r {T : Type} (R : T -> T -> Prop) l1 l2 :
  StronglySorted R (l1 ++ l2) -> StronglySorted R l2.
Proof.
  induction l1 as [|x l1 IH]; simpl; intros H; [exact H|].
  apply StronglySorted_inv in H. now apply IH.
Qed.

Lemma Zleb_total a b : (a <=? b) = true \/ (b <=? a) = true.
Proof. rewrite !Z.leb_le. lia. Qed.

Lemma sort_by_level_sorted l :
  StronglySorted (fun a b => level a <= level b) (sort_by level Z.leb l).
Proof.
  apply Sorted_StronglySorted; [intros a b c; lia|].
  pose proof (sort_by_sorted level Z.leb Zleb_total l) as H.
  induction H as [|x t Ht IH Hx]; constructor; auto.
  destruct Hx as [|y t Hxy]; constructor. now apply Z.leb_le.
Qed.

(** What [calculateLevels] returns inside [main]. *)
Lemma main_levels module_list fuel out0 :
  NoDup module_list ->
  acyclic (main_graph build_gradle gradle_properties module_list) ->
  calculateLevels fuel (sortModuleNameList module_list)
    (main_records build_gradle gradle_properties module_list) = Ok out0 ->
  map name out0 = sortModuleNameList module_list /\
  forall a, In a out0 ->
    version a = getVersion gradle_properties (name a) /\
    release a = true /\
    exists k, level a = 1 + Z.of_nat k /\
      longest_from_root
        (main_graph build_gradle gradle_properties module_list) (name a) k.
Proof.
  intros Hnd Hac Hrun.
  assert (Hnames : incl (map name (main_records build_gradle
                                     gradle_properties module_list))
                        (sortModuleNameList module_list)).
  { rewrite main_records_names by exact Hnd. apply incl_refl. }
  pose proof (calculateLevels_longest fuel _ _ out0 Hac Hnames Hrun) as HF.
  fold (main_graph build_gradle gradle_properties module_list) in HF.
  split.
  - rewrite <- (main_records_names module_list Hnd).
    clear -HF. induction HF as [|m m' t t' [Hp _] Ht IH]; simpl;
      [reflexivity|].
    destruct Hp as [Hn _]. simpl in Hn. now rewrite Hn, IH.
  - intros a Ha. destruct (Forall2_In_r _ _ _ _ HF Ha) as [m [Hm [Hp Hk]]].
    destruct Hp as [Hn [Hv [_ [Hr _]]]]. simpl in Hn, Hv, Hr.
    rewrite main_records_distinct in Hm by exact Hnd.
    apply in_map_iff in Hm. destruct Hm as [x [<- Hx]].
    simpl in Hn, Hv, Hr, Hk. rewrite Hn. auto.
Qed.


(** Inside [main], a dependency is strictly below its dependent. *)
Lemma main_levels_order module_list fuel out0 a b :
  NoDup module_list ->
  acyclic (main_graph build_gradle gradle_properties module_list) ->
  calculateLevels fuel (sortModuleNameList module_list)
    (main_records build_gradle gradle_properties module_list) = Ok out0 ->
  In a out0 -> In b out0 ->
  In (name a) (getDependencies build_gradle (name b)) ->
  level a < level b.
Proof.
  intros Hnd Hac Hrun Ha Hb Hdep.
  destruct (main_levels module_list fuel out0 Hnd Hac Hrun) as [Hn Hrec].
  pose proof (sortModuleNameList_perm module_list) as Hp.
  assert (Hlisted : forall a, In a out0 -> In (name a) module_list).
  { intros x Hx. apply (Permutation_in _ Hp). rewrite <- Hn.
    now apply in_map. }
  assert (He : edge (main_graph build_gradle gradle_properties module_list)
                    (name a) (name b)).
  { apply main_graph_edge; auto. }
  destruct (Hrec a Ha) as [_ [_ [ka [Hla [[r [Hr Hw]] _]]]]].
  destruct (Hrec b Hb) as [_ [_ [kb [Hlb [_ Hmax]]]]].
  pose proof (Hmax r (S ka) Hr (walk_snoc _ _ _ _ _ Hw He)). lia.
Qed.

(** X11. Whenever [main] returns for a module list without repetitions
    whose graph is acyclic, a module that is among the dependencies
    read for another has a strictly lower level than it, and so comes
    before it in the records written. *)
Theorem main_release_order module_list readMeFile fuel out text :
  NoDup module_list ->
  acyclic (main_graph build_gradle gradle_properties module_list) ->
  main build_gradle gradle_properties fuel module_list readMeFile
  = Ok (out, text) ->
  (forall a b, In a out -> In b out ->
     In (name a) (getDependencies build_gradle (name b)) ->
     level a < level b) /\
  (forall l1 b l2 a, out = l1 ++ b :: l2 -> In a out ->
     In (name a) (getDependencies build_gradle (name b)) -> In a l1).
Proof.
  intros Hnd Hac Hmain. unfold main in Hmain.
  fold (main_records build_gradle gradle_properties module_list) in Hmain.
  apply bind_Ok in Hmain. destruct Hmain as [out0 [Hrun Hmain]].
  injection Hmain as <- _.
  pose proof (sort_by_perm level Z.leb out0) as Hperm.
  assert (Hlt : forall a b, In a (sort_by level Z.leb out0) ->
            In b (sort_by level Z.leb out0) ->
            In (name a) (getDependencies build_gradle (name b)) ->
            level a < level b).
  { intros a b Ha Hb Hdep.
    apply (Permutation_in _ Hperm) in Ha, Hb.
    now apply (main_levels_order module_list fuel out0). }
  split; [exact Hlt|].
  intros l1 b l2 a Hout Ha Hdep.
  assert (Hb : In b (sort_by level Z.leb out0))
    by (rewrite Hout; apply in_or_app; right; now left).
  pose proof (Hlt a b Ha Hb Hdep) as Hab.
  pose proof (sort_by_level_sorted out0) as Hs. rewrite Hout in *.
  apply in_app_or in Ha. destruct Ha as [Ha|[Ha|Ha]]; [exact Ha | |].
  - subst a. lia.
  - exfalso. apply StronglySorted_app_r in Hs.
    apply StronglySorted_inv in Hs. destruct Hs as [_ Hs].
    rewrite Forall_forall in Hs. specialize (Hs a Ha). lia.
Qed.

(** X14. Whenever [main] returns for a module list without repetitions
    whose graph is acyclic, the level of a module is 1 if none of the
    dependencies read for it is a listed module, and otherwise one more
    than the level of one of its listed dependencies, which by the
    order of levels is the highest among them. *)
Theorem main_level_recurrence module_list readMeFile fuel out text :
  NoDup module_list ->
  acyclic (main_graph build_gradle gradle_properties module_list) ->
  main build_gradle gradle_properties fuel module_list readMeFile
  = Ok (out, text) ->
  forall a, In a out ->
    (level a = 1 /\
     forall d, In d (getDependencies build_gradle (name a)) ->
               ~ In d module_list) \/
    (exists b, In b out /\
       In (name b) (getDependencies build_gradle (name a)) /\
       level a = level b + 1 /\
       forall c, In c out ->
         In (name c) (getDependencies build_gradle (name a)) ->
         level c <= level b).
Proof.
  intros Hnd Hac Hmain a Ha. unfold main in Hmain.
  fold (main_records build_gradle gradle_properties module_list) in Hmain.
  apply bind_Ok in Hmain. destruct Hmain as [out0 [Hrun Hmain]].
  injection Hmain as <- _.
  pose proof (sort_by_perm level Z.leb out0) as Hperm.
  apply (Permutation_in _ Hperm) in Ha.
  destruct (main_levels module_list fuel out0 Hnd Hac Hrun) as [Hn Hrec].
  pose proof (sortModuleNameList_perm module_list) as Hp.
  assert (Hrecord : forall d, In d module_list ->
            exists b, In b out0 /\ name b = d).
  { intros d Hd. apply Permutation_sym in Hp.
    apply (Permutation_in _ Hp) in Hd. rewrite <- Hn in Hd.
    apply in_map_iff in Hd. destruct Hd as [b [Hb Hin]]. eauto. }
  destruct (Hrec a Ha) as [_ [_ [ka [Hla [[r [Hr Hw]] Hmaxa]]]]].
  destruct ka as [|j].
  - left. split; [lia|]. intros d Hd Hlisted.
    destruct (Hrecord d Hlisted) as [b [Hb Hname]]. subst d.
    pose proof (main_levels_order module_list fuel out0 b a
                  Hnd Hac Hrun Hb Ha Hd) as Hlt.
    destruct (Hrec b Hb) as [_ [_ [kb [Hlb _]]]]. lia.
  - right. apply walk_last in Hw. destruct Hw as [x [Hw He]].
    apply main_graph_edge in He; [|exact Hnd].
    destruct He as [Hx [_ Hdep]].
    destruct (Hrecord x Hx) as [b [Hb Hname]]. subst x.
    exists b. apply Permutation_sym in Hperm.
    split; [now apply (Permutation_in _ Hperm)|]. split; [exact Hdep|].
    pose proof (main_levels_order module_list fuel out0 b a
                  Hnd Hac Hrun Hb Ha Hdep) as Hlt.
    destruct (Hrec b Hb) as [_ [_ [kb [Hlb [_ Hmaxb]]]]].
    pose proof (Hmaxb r j Hr Hw) as Hj.
    split; [lia|].
    intros c Hc Hcdep. apply Permutation_sym in Hperm.
    apply (Permutation_in _ Hperm) in Hc.
    pose proof (main_levels_order module_list fuel out0 c a
                  Hnd Hac Hrun Hc Ha Hcdep). lia.
Qed.

(** X15. For a module list without repetitions, no record [main] hands
    to [calculateLevels] lists a dependent twice, and every dependent
    listed is a module of the list. *)
Theorem main_records_dependents module_list :
  NoDup module_list ->
  Forall (fun m => NoDup (dependents m) /\
                   incl (dependents m) module_list)
         (main_records build_gradle gradle_properties module_list).
Proof.
  intros Hnd. rewrite main_records_distinct by exact Hnd.
  pose proof (sortModuleNameList_perm module_list) as Hp.
  apply Forall_forall. intros m Hm. apply in_map_iff in Hm.
  destruct Hm as [x [<- Hx]]. simpl. split.
  - apply NoDup_filter.
    apply Permutation_NoDup with module_list; [|exact Hnd].
    now apply Permutation_sym.
  - intros d Hd. apply filter_In in Hd. destruct Hd as [Hd _].
    now apply (Permutation_in _ Hp).
Qed.

End MainFacts.

(** ** The dashboard *)

Lemma dashboard_rows_marks mods :
  forall currentLevel,
    StronglySorted (fun a b => level a <= level b) mods ->
    (forall m, In m mods -> currentLevel <= level m) ->
    dashboard_rows mods None currentLevel
    = join (map (fun p => dashboard_row (fst p) (snd p))
                (combine (level_marks currentLevel mods) mods)).
Proof.
  induction mods as [|m t IH]; intros cl Hs Hle; [reflexivity|].
  cbn [dashboard_rows level_marks combine map join fold_right fst snd].
  apply StronglySorted_inv in Hs. destruct Hs as [Hs Hm].
  rewrite Forall_forall in Hm.
  assert (Hcl : (if cl <? level m then level m else cl) = level m).
  { destruct (cl <? level m) eqn:E; [reflexivity|].
    apply Z.ltb_ge in E. pose proof (Hle m (or_introl eq_refl)). lia. }
  rewrite Hcl. rewrite (IH (level m) Hs Hm). reflexivity.
Qed.

(** X12. For records in ascending order of level, with levels of at
    least 1, as [main] hands them over, the rows of the dashboard show
    the level in the first row and in every row whose level is higher
    than that of the row above, and leave the level column empty in the
    other rows. *)
Theorem dashboard_rows_level_column mods :
  StronglySorted (fun a b => level a <= level b) mods ->
  (forall m, In m mods -> 1 <= level m) ->
  dashboard_rows mods (Some 1) 1
  = join (map (fun p => dashboard_row (fst p) (snd p))
              (combine (level_column mods) mods)).
Proof.
  intros Hs Hle. destruct mods as [|m t]; [reflexivity|].
  cbn [dashboard_rows level_column combine map join fold_right fst snd].
  pose proof (Hle m (or_introl eq_refl)) as Hm.
  apply StronglySorted_inv in Hs. destruct Hs as [Hs Ht].
  rewrite Forall_forall in Ht.
  assert (Hcol : (if 1 <? level m then Some (level m) else Some 1)
                 = Some (level m)).
  { destruct (1 <? level m) eqn:E; [reflexivity|].
    apply Z.ltb_ge in E. f_equal. lia. }
  assert (Hcl : (if 1 <? level m then level m else 1) = level m).
  { destruct (1 <? level m) eqn:E; [reflexivity|].
    apply Z.ltb_ge in E. lia. }
  rewrite Hcol, Hcl. now rewrite (dashboard_rows_marks t (level m) Hs Ht).
Qed.


(** ** The properties at work *)

Lemma ex_module_list_NoDup : NoDup ex_module_list.
Proof.
  unfold ex_module_list.
  repeat constructor; simpl; intuition discriminate.
Qed.

Lemma ex_acyclic :
  acyclic (main_graph ex_build_gradle ex_gradle_properties ex_module_list).
Proof. apply acyclicb_sound. vm_compute. reflexivity. Qed.

Lemma ex_main :
  main ex_build_gradle ex_gradle_properties 3 ex_module_list ex_readme
  = Ok (ex_out, updateStdlibDashboard ex_readme ex_out).
Proof. vm_compute. reflexivity. Qed.

Lemma getDependencies_repos_witness :
  map render_line ex_accented_gradle = map render_line ex_accented_gradle /\
  Forall well_formed_line ex_accented_gradle /\
  getDependencies (fun _ => map render_line ex_accented_gradle)
    "module-ballerina-io"
  = [ ("module-ballerina-caf" ++ e_acute)%string ].
Proof.
  assert (Hwf : Forall well_formed_line ex_accented_gradle)
    by (repeat constructor).
  split; [reflexivity|]. split; [exact Hwf|].
  exact (getDependencies_repos (fun _ => map render_line ex_accented_gradle)
           "module-ballerina-io" ex_accented_gradle eq_refl Hwf).
Defined.


Lemma getVersion_last_line_witness :
  Forall (fun line => utf8 line = true)
    (ex_accented_properties "module-ballerina-io") /\
  ex_accented_properties "module-ballerina-io"
  = [ ("version=0.9.0" ++ nl)%string ]
    ++ ("version=" ++ ("1.0.0" ++ e_acute))%string :: [] /\
  has_char "=" ("1.0.0" ++ e_acute)%string = false /\
  (forall line, In line [] -> prefix "version=" line = false) /\
  getVersion ex_accented_properties "module-ballerina-io" = "1.0.0"%string.
Proof.
  assert (Hu : Forall (fun line => utf8 line = true)
                 (ex_accented_properties "module-ballerina-io"))
    by (repeat constructor).
  assert (Hl : ex_accented_properties "module-ballerina-io"
               = [ ("version=0.9.0" ++ nl)%string ]
                 ++ ("version=" ++ ("1.0.0" ++ e_acute))%string :: [])
    by reflexivity.
  assert (Hw : has_char "=" ("1.0.0" ++ e_acute)%string = false)
    by reflexivity.
  assert (H : forall line : string,
            In line [] -> prefix "version=" line = false)
    by (intros line []).
  split; [exact Hu|]. split; [exact Hl|]. split; [exact Hw|].
  split; [exact H|].
  exact (proj2 (proj2 (getVersion_last_line ex_accented_properties
                         "module-ballerina-io" _ _ _ Hu Hl Hw H))
           "1.0.0"%string e_acute eq_refl eq_refl eq_refl).
Defined.

Lemma getImmediateDependents_initial_witness :
  NoDup ex_module_list /\
  getImmediateDependents (getDependencies ex_build_gradle) ex_module_list
    (initializeModuleDetails (getVersion ex_gradle_properties)
       ex_module_list)
  = map (fun m => mkModule m (getVersion ex_gradle_properties m) 0 true
                    (filter (depends_on (getDependencies ex_build_gradle) m)
                            ex_module_list))
        ex_module_list.
Proof.
  split; [exact ex_module_list_NoDup|].
  exact (getImmediateDependents_initial (getVersion ex_gradle_properties)
           (getDependencies ex_build_gradle) ex_module_list
           ex_module_list_NoDup).
Defined.

Lemma main_graph_spec_witness :
  NoDup ex_module_list /\
  (edge (main_graph ex_build_gradle ex_gradle_properties ex_module_list)
        "module-ballerina-io" "module-ballerina-log" <->
   In "module-ballerina-io"%string ex_module_list /\
   In "module-ballerina-log"%string ex_module_list /\
   In "module-ballerina-io"%string
      (getDependencies ex_build_gradle "module-ballerina-log")) /\
  ~ edge (main_graph ex_build_gradle ex_gradle_properties ex_module_list)
         "module-ballerina-io" "module-ballerina-io".
Proof.
  destruct (main_graph_spec ex_build_gradle ex_gradle_properties
              ex_module_list ex_module_list_NoDup) as [He [Hself _]].
  split; [exact ex_module_list_NoDup|].
  split; [apply He | apply Hself].
Defined.


Lemma main_release_order_witness :
  NoDup ex_module_list /\
  acyclic (main_graph ex_build_gradle ex_gradle_properties ex_module_list) /\
  main ex_build_gradle ex_gradle_properties 3 ex_module_list ex_readme
  = Ok (ex_out, updateStdlibDashboard ex_readme ex_out) /\
  (forall a b, In a ex_out -> In b ex_out ->
     In (name a) (getDependencies ex_build_gradle (name b)) ->
     level a < level b) /\
  (forall l1 b l2 a, ex_out = l1 ++ b :: l2 -> In a ex_out ->
     In (name a) (getDependencies ex_build_gradle (name b)) -> In a l1).
Proof.
  split; [exact ex_module_list_NoDup|]. split; [exact ex_acyclic|].
  split; [exact ex_main|].
  exact (main_release_order ex_build_gradle ex_gradle_properties
           ex_module_list ex_readme 3%nat ex_out _
           ex_module_list_NoDup ex_acyclic ex_main).
Defined.

Lemma main_level_recurrence_witness :
  NoDup ex_module_list /\
  acyclic (main_graph ex_build_gradle ex_gradle_properties ex_module_list) /\
  main ex_build_gradle ex_gradle_properties 3 ex_module_list ex_readme
  = Ok (ex_out, updateStdlibDashboard ex_readme ex_out) /\
  forall a, In a ex_out ->
    (level a = 1 /\
     forall d, In d (getDependencies ex_build_gradle (name a)) ->
               ~ In d ex_module_list) \/
    (exists b, In b ex_out /\
       In (name b) (getDependencies ex_build_gradle (name a)) /\
       level a = level b + 1 /\
       forall c, In c ex_out ->
         In (name c) (getDependencies ex_build_gradle (name a)) ->
         level c <= level b).
Proof.
  split; [exact ex_module_list_NoDup|]. split; [exact ex_acyclic|].
  split; [exact ex_main|].
  exact (main_level_recurrence ex_build_gradle ex_gradle_properties
           ex_module_list ex_readme 3%nat ex_out _
           ex_module_list_NoDup ex_acyclic ex_main).
Defined.

Lemma main_records_dependents_witness :
  NoDup ex_module_list /\
  Forall (fun m => NoDup (dependents m) /\
                   incl (dependents m) ex_module_list)
         (main_records ex_build_gradle ex_gradle_properties ex_module_list).
Proof.
  split; [exact ex_module_list_NoDup|].
  exact (main_records_dependents ex_build_gradle ex_gradle_properties
           ex_module_list ex_module_list_NoDup).
Defined.

Lemma dashboard_rows_level_column_witness :
  StronglySorted (fun a b => level a <= level b) ex_out /\
  (forall m, In m ex_out -> 1 <= level m) /\
  dashboard_rows ex_out (Some 1) 1
  = join (map (fun p => dashboard_row (fst p) (snd p))
              (combine (level_column ex_out) ex_out)).
Proof.
  assert (Hs : StronglySorted (fun a b => level a <= level b) ex_out)
    by (unfold ex_out; repeat constructor; simpl; lia).
  assert (Hl : forall m, In m ex_out -> 1 <= level m)
    by (intros m [<-|[<-|[<-|[]]]]; simpl; lia).
  split; [exact Hs|]. split; [exact Hl|].
  exact (dashboard_rows_level_column ex_out Hs Hl).
Defined.


(** * The level computation at its edges *)

(** ** Runs that do not return, and runs without a start *)

(** X16. The computation does not return when some record is of a
    module that is not listed and that no edge points to: its node has
    no level to copy back. *)
Theorem unlisted_record_no_result names mods m :
  In m mods -> ~ In (name m) names ->
  in_degree (build_graph names mods) (name m) = O ->
  forall fuel out, calculateLevels fuel names mods <> Ok out.
Proof.
  intros Hm Hn Hdeg fuel out H.
  destruct (calculateLevels_spec _ _ _ _ H) as [G' [_ [Hpost Hlev]]].
  destruct (Forall2_In_l _ _ _ _ Hlev Hm) as [m' [_ Hm']].
  destruct Hm' as [_ [_ [_ [_ [_ Hl]]]]].
  destruct (Hpost (name m)) as [[Heq _]|[u [j [_ [Hw _]]]]].
  - rewrite Heq in Hl.
    destruct (build_graph_levels_from names mods _ _ Hl) as [_ Hin].
    contradiction.
  - apply walk_last in Hw. destruct Hw as [x [_ Hx]].
    apply in_degree_zero with (u := x) in Hdeg. contradiction.
Qed.

Lemma unlisted_record_no_result_witness :
  In (mkModule "A" "1.0.0" 0 true ["B"]%string) stray_mods /\
  ~ In "A"%string stray_names /\
  in_degree (build_graph stray_names stray_mods) "A" = O /\
  forall fuel out, calculateLevels fuel stray_names stray_mods <> Ok out.
Proof.
  assert (Hm : In (mkModule "A" "1.0.0" 0 true ["B"]%string) stray_mods)
    by (simpl; auto).
  assert (Hn : ~ In "A"%string stray_names) by (intros []).
  assert (Hd : in_degree (build_graph stray_names stray_mods) "A" = O)
    by reflexivity.
  split; [exact Hm|]. split; [exact Hn|]. split; [exact Hd|].
  exact (unlisted_record_no_result stray_names stray_mods _ Hm Hn Hd).
Defined.

(** X17. The computation does not return, whatever the fuel, when a walk
    leads from a node the propagation starts from to a node that lies
    on a cycle: the waves keep reaching that node. *)
Theorem reachable_cycle_no_result names mods r v k j :
  In r (initial_list (build_graph names mods)) ->
  walk (build_graph names mods) (S k) r v ->
  walk (build_graph names mods) (S j) v v ->
  forall fuel out, calculateLevels fuel names mods <> Ok out.
Proof.
  intros Hr Hrv Hvv fuel out H. unfold calculateLevels in H.
  apply bind_Ok in H. destruct H as [[G' mods'] [Hloop _]].
  set (B := build_graph names mods) in *.
  destruct (while_loop_spec B mods fuel B mods (initial_list B) 2 G' mods'
              (same_shape_refl B) (pruned_from_refl B mods) Hloop)
    as [_ [_ Hpost]].
  destruct (Hpost v) as [[_ Hno]|[u [i [_ [_ [_ Hmax]]]]]].
  - exact (Hno r k Hr Hrv).
  - pose proof (cycle_pump B j v (S i) Hvv) as Hpump.
    pose proof (walk_app B _ _ _ _ _ Hrv Hpump) as Hlong.
    simpl in Hlong.
    pose proof (Hmax r _ Hr Hlong) as Hle. nia.
Qed.

Lemma reachable_cycle_no_result_witness :
  In "A"%string (initial_list (build_graph abc_names cycle_mods)) /\
  walk (build_graph abc_names cycle_mods) 1 "A" "B" /\
  walk (build_graph abc_names cycle_mods) 2 "B" "B" /\
  forall fuel out, calculateLevels fuel abc_names cycle_mods <> Ok out.
Proof.
  assert (Hr : In "A"%string (initial_list (build_graph abc_names cycle_mods)))
    by (vm_compute; auto).
  assert (Hab : walk (build_graph abc_names cycle_mods) 1 "A" "B").
  { apply walk_cons with "B"%string; [vm_compute; auto | constructor]. }
  assert (Hbb : walk (build_graph abc_names cycle_mods) 2 "B" "B").
  { apply walk_cons with "C"%string; [vm_compute; auto|].
    apply walk_cons with "B"%string; [vm_compute; auto | constructor]. }
  split; [exact Hr|]. split; [exact Hab|]. split; [exact Hbb|].
  exact (reachable_cycle_no_result abc_names cycle_mods "A" "B" 0 1
           Hr Hab Hbb).
Defined.

Lemma write_levels_all_one G mods :
  (forall m, In m mods -> lookup (name m) (g_node G) = Some (Some 1)) ->
  write_levels G mods = Ok (map (fun m => with_level m 1) mods).
Proof.
  induction mods as [|m t IH]; simpl; intros H; [reflexivity|].
  unfold get_level. rewrite (H m (or_introl eq_refl)). simpl.
  rewrite IH; [reflexivity|]. intros m' Hm'. apply H. now right.
Qed.

(** The last loop returns only when every record's node has a level,
    and raises [KeyError] otherwise. *)
Lemma write_levels_Ok_inv G mods out :
  write_levels G mods = Ok out ->
  forall m, In m mods -> exists l, lookup (name m) (g_node G) = Some (Some l).
Proof.
  revert out. induction mods as [|m t IH]; simpl; intros out H m' Hm';
    [destruct Hm'|].
  apply bind_Ok in H. destruct H as [l [Hl H]].
  apply bind_Ok in H. destruct H as [t' [Ht _]].
  destruct Hm' as [<-|Hm'].
  - unfold get_level in Hl.
    destruct (lookup (name m) (g_node G)) as [[l'|]|]; try discriminate.
    now exists l'.
  - exact (IH t' Ht m' Hm').
Qed.

Lemma write_levels_cases G mods :
  (exists out, write_levels G mods = Ok out) \/
  (exists key, write_levels G mods = Raise (KeyError key)).
Proof.
  induction mods as [|m t IH]; simpl; [left; now exists []|].
  unfold get_level.
  destruct (lookup (name m) (g_node G)) as [[l|]|]; simpl.
  - destruct IH as [[out ->]|[key ->]]; simpl.
    + left. now eexists.
    + right. now exists key.
  - right. now eexists.
  - right. now eexists.
Qed.

(** X18. When the graph has no node without incoming and with outgoing
    edges, as when no module has a dependent or when every module with
    a dependent lies behind a cycle, the propagation does not start and
    no fuel is used.  If every record is of a listed module, the
    computation returns the records as they are, their dependents
    unpruned, every one at level 1; if some record is not, it raises
    [KeyError]. *)
Theorem no_start_all_level_one names mods fuel :
  initial_list (build_graph names mods) = [] ->
  (incl (map name mods) names ->
   calculateLevels fuel names mods
   = Ok (map (fun m => with_level m 1) mods)) /\
  (~ incl (map name mods) names ->
   exists key, calculateLevels fuel names mods = Raise (KeyError key)).
Proof.
  intros Hstart.
  assert (Hrun : calculateLevels fuel names mods
                 = write_levels (build_graph names mods) mods).
  { unfold calculateLevels. rewrite Hstart.
    replace (while_loop fuel (build_graph names mods) mods [] 2)
      with (Ok (build_graph names mods, mods)) by (now destruct fuel).
    reflexivity. }
  rewrite Hrun. split.
  - intros Hnames. apply write_levels_all_one.
    intros m Hm. apply build_graph_level. apply Hnames. now apply in_map.
  - intros Hnot.
    destruct (write_levels_cases (build_graph names mods) mods)
      as [[out Hout]|Hkey]; [|exact Hkey].
    exfalso. apply Hnot. intros n Hn.
    apply in_map_iff in Hn. destruct Hn as [m [<- Hm]].
    destruct (write_levels_Ok_inv _ _ _ Hout m Hm) as [l Hl].
    exact (proj2 (build_graph_levels_from names mods _ _ Hl)).
Qed.

Lemma no_start_all_level_one_witness :
  (initial_list (build_graph ring_names ring_mods) = [] /\
   incl (map name ring_mods) ring_names /\
   calculateLevels 0 ring_names ring_mods
   = Ok (map (fun m => with_level m 1) ring_mods)) /\
  (initial_list (build_graph stray_names lone_mods) = [] /\
   ~ incl (map name lone_mods) stray_names /\
   exists key, calculateLevels 0 stray_names lone_mods
               = Raise (KeyError key)).
Proof.
  assert (Hs : initial_list (build_graph ring_names ring_mods) = [])
    by reflexivity.
  assert (Hn : incl (map name ring_mods) ring_names)
    by (intros x Hx; exact Hx).
  assert (Hs' : initial_list (build_graph stray_names lone_mods) = [])
    by reflexivity.
  assert (Hn' : ~ incl (map name lone_mods) stray_names)
    by (intros H; exact (H "A"%string (or_introl eq_refl))).
  split.
  - split; [exact Hs|]. split; [exact Hn|].
    exact (proj1 (no_start_all_level_one ring_names ring_mods 0 Hs) Hn).
  - split; [exact Hs'|]. split; [exact Hn'|].
    exact (proj2 (no_start_all_level_one stray_names lone_mods 0 Hs') Hn').
Defined.

(** ** The pruner at its edges *)

Lemma max_by_len_None ps : max_by_len ps = None <-> ps = [].
Proof.
  split; [|now intros ->].
  destruct ps as [|p ps]; [reflexivity|]. simpl.
  destruct (max_by_len ps) as [q|]; [|discriminate].
  destruct (length q <=? length p)%nat; discriminate.
Qed.

(** X19. On a graph whose edges join nodes of the graph, the pruner
    called for a source and a destination that are nodes of the graph
    and differ raises [ValueError] exactly when the graph has no simple
    path from the source to the destination; it returns when there is
    one. *)
Theorem pruner_ValueError G source destination succs mods :
  closed G ->
  In source (nodes G) -> In destination (nodes G) ->
  source <> destination ->
  (removeModulesInIntermediatePaths G source destination succs mods
   = Raise ValueError <->
   forall mid, ~ (chain G (source :: mid ++ [destination]) /\
                  NoDup (source :: mid ++ [destination]))) /\
  ((exists mods',
       removeModulesInIntermediatePaths G source destination succs mods
       = Ok mods') <->
   exists mid, chain G (source :: mid ++ [destination]) /\
               NoDup (source :: mid ++ [destination])).
Proof.
  intros Hc _ _ _. unfold removeModulesInIntermediatePaths.
  destruct (max_by_len (all_simple_paths G source destination))
    as [p|] eqn:E.
  - apply max_by_len_In in E. apply all_simple_paths_sound in E.
    destruct E as [Hch [Hnd [mid ->]]]. split.
    + split; [discriminate|]. intros Hno. exfalso. apply (Hno mid). auto.
    + split; [intros _; exists mid; auto | intros _; now eexists].
  - apply max_by_len_None in E.
    assert (Hno : forall mid,
               ~ (chain G (source :: mid ++ [destination]) /\
                  NoDup (source :: mid ++ [destination]))).
    { intros mid [Hch Hnd].
      pose proof (all_simple_paths_complete G source mid destination
                    Hc Hch Hnd) as Hin.
      rewrite E in Hin. exact Hin. }
    split.
    + split; [intros _; exact Hno | reflexivity].
    + split; [intros [mods' H]; discriminate|].
      intros [mid H]. exfalso. exact (Hno mid H).
Qed.

Lemma pruner_ValueError_witness :
  closed (build_graph abc_names abc0) /\
  In "C"%string (nodes (build_graph abc_names abc0)) /\
  In "A"%string (nodes (build_graph abc_names abc0)) /\
  "C"%string <> "A"%string /\
  removeModulesInIntermediatePaths (build_graph abc_names abc0) "C" "A"
    [] abc0 = Raise ValueError /\
  forall mid, ~ (chain (build_graph abc_names abc0)
                   ("C"%string :: mid ++ ["A"%string]) /\
                 NoDup ("C"%string :: mid ++ ["A"%string])).
Proof.
  assert (Hc : In "C"%string (nodes (build_graph abc_names abc0)))
    by (simpl; auto).
  assert (Ha : In "A"%string (nodes (build_graph abc_names abc0)))
    by (simpl; auto).
  assert (Hne : "C"%string <> "A"%string) by discriminate.
  assert (Hrun : removeModulesInIntermediatePaths
                   (build_graph abc_names abc0) "C" "A" [] abc0
                 = Raise ValueError) by reflexivity.
  split; [apply build_graph_closed|]. split; [exact Hc|].
  split; [exact Ha|]. split; [exact Hne|]. split; [exact Hrun|].
  exact (proj1 (proj1 (pruner_ValueError (build_graph abc_names abc0)
                         "C" "A" [] abc0
                         (build_graph_closed abc_names abc0) Hc Ha Hne))
           Hrun).
Defined.

Lemma remove_dependent_absent source destination mods :
  (forall m, In m mods -> name m = source ->
             ~ In destination (dependents m)) ->
  remove_dependent source destination mods = mods.
Proof.
  induction mods as [|m t IH]; simpl; intros H; [reflexivity|].
  destruct (string_dec (name m) source) as [Hs|Hs].
  - destruct (in_dec string_dec destination (dependents m)) as [Hd|Hd];
      [|reflexivity].
    exfalso. exact (H m (or_introl eq_refl) Hs Hd).
  - rewrite IH; [reflexivity|]. intros m' Hm'. apply H. now right.
Qed.

(** X20. When no record of the source lists the destination, the pruner
    leaves the records as they are, whatever the paths: it does not
    raise for the entry it finds missing. *)
Theorem pruner_absent_unchanged G source destination succs mods mods' :
  (forall m, In m mods -> name m = source ->
             ~ In destination (dependents m)) ->
  removeModulesInIntermediatePaths G source destination succs mods
  = Ok mods' ->
  mods' = mods.
Proof.
  intros Habs H. unfold removeModulesInIntermediatePaths in H.
  destruct (max_by_len (all_simple_paths G source destination)) as [p|];
    [|discriminate].
  injection H as <-. induction (interior p) as [|n l IH]; simpl;
    [reflexivity|].
  destruct (in_dec string_dec n succs); [|exact IH].
  now rewrite remove_dependent_absent.
Qed.

Lemma pruner_absent_unchanged_witness :
  (forall m, In m abc_pruned -> name m = "A"%string ->
             ~ In "C"%string (dependents m)) /\
  removeModulesInIntermediatePaths (build_graph abc_names abc0) "A" "C"
    (successors (build_graph abc_names abc0) "A") abc_pruned
  = Ok abc_pruned /\
  abc_pruned = abc_pruned.
Proof.
  assert (Habs : forall m, In m abc_pruned -> name m = "A"%string ->
                           ~ In "C"%string (dependents m)).
  { intros m [<-|[<-|[<-|[]]]] Hn; simpl in *; try discriminate.
    intros [H|[]]. discriminate. }
  assert (Hrun : removeModulesInIntermediatePaths
                   (build_graph abc_names abc0) "A" "C"
                   (successors (build_graph abc_names abc0) "A") abc_pruned
                 = Ok abc_pruned) by reflexivity.
  split; [exact Habs|]. split; [exact Hrun|].
  exact (pruner_absent_unchanged _ _ _ _ _ _ Habs Hrun).
Defined.
